(** * Bottlerocket SSM parameter audit: name translation, reconciliation
      and version gate

    A shallow embedding of the three pure kernels of the repository:

    - [get_ssm_parameter_name]  (getkeyvalues.py)
    - [compare_region_results]   (comparenew.py)
    - [parse_version], [filter_versions]  (processresult.py)

    and the properties of them that the specification states. *)

From Stdlib Require Import Ascii String.
From stdpp Require Import base tactics option list strings gmap.

Local Open Scope string_scope.
Local Open Scope list_scope.
Local Open Scope nat_scope.

#[local] Set Warnings "-clear-no-such-hyp".

(** ** Python outcomes

    A call either returns a value or raises; the exceptions below are the
    ones the modelled functions can raise. *)

Inductive exn : Type :=
  | IndexError
  | KeyError
  | TypeError
  | AttributeError
  | InvalidVersion
  | RecursionError.

Inductive result (A : Type) : Type :=
  | Ok (a : A)
  | Raise (e : exn).
Arguments Ok {A} a.
Arguments Raise {A} e.

#[global] Instance result_bind : MBind result :=
  fun A B (k : A -> result B) (r : result A) =>
    match r with
    | Ok a => k a
    | Raise e => Raise e
    end.

#[global] Instance exn_eq_dec : EqDecision exn.
Proof. solve_decision. Defined.

(** ** Python [str] operations

    A Python string is a sequence of code points.  Image names and parameter
    paths are ASCII, and the embedding uses Rocq's [string], one character
    per code point. *)

Module PyStr.

(** [s.split(sep)] for a one-character separator: never empty, and a
    string without the separator is returned whole. *)
Fixpoint split (sep : ascii) (s : string) : list string :=
  match s with
  | EmptyString => [EmptyString]
  | String c s' =>
      if Ascii.eqb c sep then EmptyString :: split sep s'
      else match split sep s' with
           | [] => [String c EmptyString]
           | t :: ts => String c t :: ts
           end
  end.

(** [sep.join(parts)] *)
Fixpoint join (sep : string) (parts : list string) : string :=
  match parts with
  | [] => EmptyString
  | [p] => p
  | p :: ps => p +:+ sep +:+ join sep ps
  end.

(** [s[:n]] *)
Fixpoint prefix (n : nat) (s : string) : string :=
  match n, s with
  | S n', String c s' => String c (prefix n' s')
  | _, _ => EmptyString
  end.

(** [s.startswith(c)] for a one-character [c] *)
Definition startswith (c : ascii) (s : string) : bool :=
  match s with
  | String c' _ => Ascii.eqb c' c
  | EmptyString => false
  end.

(** [s[1:]] *)
Definition tail (s : string) : string :=
  match s with
  | String _ s' => s'
  | EmptyString => EmptyString
  end.

(** [c in s] *)
Fixpoint contains (c : ascii) (s : string) : bool :=
  match s with
  | EmptyString => false
  | String c' s' => Ascii.eqb c' c || contains c s'
  end.

End PyStr.

(** ** Python [list] operations used by the translator *)

Module PyList.
Section Ops.
Context {A : Type} `{EqDecision A}.

(** [l.insert(i, x)] for [0 <= i]: past the end it appends. *)
Definition insert_at (i : nat) (x : A) (l : list A) : list A :=
  take i l ++ x :: drop i l.

(** [l[a:b]] for [0 <= a] and [0 <= b] *)
Definition slice (a b : nat) (l : list A) : list A :=
  take (b - a) (drop a l).

(** [x in l] *)
Definition mem (x : A) (l : list A) : bool := bool_decide (x ∈ l).

(** [l.index(x)], for an [x] known to be in [l]: the first position. *)
Fixpoint index (x : A) (l : list A) : nat :=
  match l with
  | [] => 0
  | y :: l' => if decide (y = x) then 0 else S (index x l')
  end.

(** [l[-1]] and [l[-2]]; [None] is Python's [IndexError]. *)
Definition item_last (l : list A) : option A := last l.
Definition item_penultimate (l : list A) : option A :=
  match length l with
  | S (S n) => l !! n
  | _ => None
  end.
End Ops.
End PyList.

(** ** getkeyvalues.py: [get_ssm_parameter_name] *)

Module Translator.
Import PyStr PyList.

Definition dash : ascii := "-"%char.
Definition slash : ascii := "/"%char.

(** Lines 124-126: make sure the variant starts with [aws]. *)
Definition ensure_aws (parts : list string) : list string :=
  if decide (parts !! 2 = Some "aws") then parts
  else insert_at 2 "aws" parts.

(** Lines 128-139: the variant and the index of the architecture token. *)
Definition variant_and_arch_index (parts : list string) : string * nat :=
  if mem "nvidia" parts then
    let nvidia_index := index "nvidia" parts in
    (join "-" (slice 2 (nvidia_index + 1) parts), nvidia_index + 1)
  else if mem "fips" parts then
    let fips_index := index "fips" parts in
    (join "-" (slice 2 (fips_index + 1) parts), fips_index + 1)
  else
    (join "-" (slice 2 5 parts), 5).

(** Lines 143-144 *)
Definition convert_arch (arch : string) : string :=
  if decide (arch = "aarch64") then "arm64" else arch.

(** Line 147 *)
Definition version_parts_of (parts : list string) (arch_index : nat)
  : list string :=
  filter (fun p => p ≠ "v1") (drop (arch_index + 1) parts).

(** Lines 148-154: the version and the commit SHA, before the [v] prefix
    is removed. *)
Definition version_and_commit (version_parts : list string)
  : string * string :=
  if decide (2 <= length version_parts) then
    (default "" (item_penultimate version_parts),
     prefix 8 (default "" (item_last version_parts)))
  else
    ("unknown",
     match item_last version_parts with
     | Some p => prefix 8 p
     | None => "unknown"
     end).

(** Lines 157-158 *)
Definition strip_v (version : string) : string :=
  if startswith "v" version then tail version else version.

(** Lines 161-167 *)
Definition version_string_of (include_commit : bool)
    (version commit_sha : string) : string :=
  if include_commit then
    if decide (version ≠ commit_sha) then version +:+ "-" +:+ commit_sha
    else version
  else version.

(** Line 169 *)
Definition path_of (variant arch version_string : string) : string :=
  "aws/service/bottlerocket/" +:+ variant +:+ "/" +:+ arch +:+ "/"
    +:+ version_string +:+ "/image_id".

(** The function.  [Ok None] is the [return None] of line 122; the only
    subscript that can fail is [parts[arch_index]] on line 142. *)
Definition get_ssm_parameter_name (ami_name : string)
    (include_commit : bool) : result (option string) :=
  let parts := split dash ami_name in
  if decide (length parts < 7) then Ok None
  else
    let parts := ensure_aws parts in
    let '(variant, arch_index) := variant_and_arch_index parts in
    match parts !! arch_index with
    | None => Raise IndexError
    | Some arch =>
        let arch := convert_arch arch in
        let version_parts := version_parts_of parts arch_index in
        let '(version, commit_sha) := version_and_commit version_parts in
        let version := strip_v version in
        let version_string :=
          version_string_of include_commit version commit_sha in
        Ok (Some (path_of variant arch version_string))
    end.

(** The version and commit SHA prefix the function computes for a name
    (after the [v] prefix is removed), for stating properties of them. *)
Definition corrected_parts (ami_name : string) : list string :=
  ensure_aws (split dash ami_name).

Definition parsed_version (ami_name : string) : string :=
  let parts := corrected_parts ami_name in
  strip_v (version_and_commit
    (version_parts_of parts (variant_and_arch_index parts).2)).1.

Definition parsed_commit (ami_name : string) : string :=
  let parts := corrected_parts ami_name in
  (version_and_commit
    (version_parts_of parts (variant_and_arch_index parts).2)).2.

End Translator.

(** ** comparenew.py: [compare_region_results] *)

Module Reconcile.
Section Compare.
(** Values are image identifiers (Python [str], or [None] for a record
    without an id); [==] on them is structural equality. *)
Context {V : Type} `{EqDecision V}.

(** The order in which Python iterates over a [set] is unspecified; it
    is a parameter of the model. *)
Variable set_iter : gset string -> list string.

(** An entry of the [mismatched] list (lines 81-85). *)
Record mismatch : Type := Mismatch {
  key : string;
  s3_value : V;
  ssm_value : V
}.

(** The [comparison] dict (lines 67-72). *)
Record comparison : Type := Comparison {
  matching : list string;
  mismatched : list mismatch;
  only_in_s3 : list string;
  only_in_ssm : list string
}.

Definition empty_comparison : comparison := Comparison [] [] [] [].

(** The body of the loop (lines 77-89). *)
Definition compare_key (s3_data ssm_data : gmap string V)
    (c : comparison) (k : string) : comparison :=
  match s3_data !! k, ssm_data !! k with
  | Some a, Some b =>
      if decide (a = b) then
        Comparison (matching c ++ [k]) (mismatched c)
                   (only_in_s3 c) (only_in_ssm c)
      else
        Comparison (matching c) (mismatched c ++ [Mismatch k a b])
                   (only_in_s3 c) (only_in_ssm c)
  | Some _, None =>
      Comparison (matching c) (mismatched c)
                 (only_in_s3 c ++ [k]) (only_in_ssm c)
  | None, _ =>
      Comparison (matching c) (mismatched c)
                 (only_in_s3 c) (only_in_ssm c ++ [k])
  end.

(** Line 74 *)
Definition all_keys (s3_data ssm_data : gmap string V) : gset string :=
  dom s3_data ∪ dom ssm_data.

Definition compare_region_results (s3_data ssm_data : gmap string V)
  : comparison :=
  foldl (compare_key s3_data ssm_data) empty_comparison
        (set_iter (all_keys s3_data ssm_data)).

(** How often a key occurs in the four lists together. *)
Definition occurrences (k : string) (c : comparison) : nat :=
  length (filter (λ x, x = k) (matching c))
  + length (filter (λ m, key m = k) (mismatched c))
  + length (filter (λ x, x = k) (only_in_s3 c))
  + length (filter (λ x, x = k) (only_in_ssm c)).
End Compare.

Arguments mismatch V : clear implicits.
Arguments comparison V : clear implicits.
End Reconcile.

(** ** processresult.py: [parse_version] and [filter_versions] *)

(** [packaging.version] is a third-party library; the filter uses its
    [parse] (with [None] standing for [InvalidVersion]) and the [>=] of its
    [Version] objects. *)
Class Packaging : Type := {
  Version : Type;
  version_parse : string -> option Version;
  version_ge : Version -> Version -> bool
}.

Module VersionGate.
Import PyStr PyList.

(** *** The object store

    [json.load] builds dicts and lists that the filter then updates in
    place, so dicts and lists live in a store and are referred to by
    location; the other values are immediate.  No function looks into a
    number, so one constructor stands for integers and floats. *)
Abbreviation loc := nat.

Inductive val : Type :=
  | VNone
  | VBool (b : bool)
  | VNum (n : Z)
  | VStr (s : string)
  | VRef (l : loc).

Inductive obj : Type :=
  | ODict (items : list (string * val))
  | OList (elems : list val).

Abbreviation heap := (list obj).

#[global] Instance val_eq_dec : EqDecision val.
Proof. solve_decision. Defined.
#[global] Instance obj_eq_dec : EqDecision obj.
Proof. solve_decision. Defined.

(** [isinstance(v, list)] and [isinstance(v, dict)], with the contents.  A
    reference always points into the store in Python; one that does not is
    neither a list nor a dict here. *)
Definition as_list (h : heap) (v : val) : option (list val) :=
  match v with
  | VRef l => match h !! l with Some (OList xs) => Some xs | _ => None end
  | _ => None
  end.

Definition as_dict (h : heap) (v : val) : option (list (string * val)) :=
  match v with
  | VRef l => match h !! l with Some (ODict kvs) => Some kvs | _ => None end
  | _ => None
  end.

(** A new object gets the next free location. *)
Definition alloc (h : heap) (o : obj) : heap * val :=
  (h ++ [o], VRef (length h)).

(** [d[k]] and [d[k] = v] on the items of a dict: assignment to a key
    that is present keeps its position. *)
Fixpoint dict_get (k : string) (kvs : list (string * val)) : option val :=
  match kvs with
  | [] => None
  | (k', v) :: rest => if decide (k' = k) then Some v else dict_get k rest
  end.

Fixpoint dict_set (k : string) (v : val) (kvs : list (string * val))
  : list (string * val) :=
  match kvs with
  | [] => [(k, v)]
  | (k', v') :: rest =>
      if decide (k' = k) then (k, v) :: rest
      else (k', v') :: dict_set k v rest
  end.

(** [data[key] = value] for the dict at location [l]. *)
Definition store_item (h : heap) (l : loc) (k : string) (v : val) : heap :=
  match h !! l with
  | Some (ODict kvs) => <[l := ODict (dict_set k v kvs)]> h
  | _ => h
  end.

(** Lines 5-7: the second-to-last [/] segment of the path, up to its first
    [-]; [None] when the path has fewer than two segments. *)
Definition version_part (path : string) : option string :=
  let parts := split "/" path in
  if decide (2 <= length parts) then
    Some (hd "" (split "-" (default "" (item_penultimate parts))))
  else None.

(** The key names of line 28. *)
Definition filtered_keys : list string :=
  ["matching"; "mismatched"; "only_in_s3"; "only_in_ssm"].

Section Filter.
Context `{Packaging}.

(** Lines 4-12 *)
Definition parse_version (path : string) : option Version :=
  match version_part path with
  | Some ver_part => version_parse ver_part
  | None => None
  end.

(** The condition of the comprehension on lines 18-19. *)
Definition keep_item (min_ver : Version) (item : val) : bool :=
  match item with
  | VStr s =>
      match parse_version s with
      | Some parsed_ver => version_ge parsed_ver min_ver
      | None => false
      end
  | _ => false
  end.

(** Lines 17-19 *)
Definition filter_list (min_ver : Version) (items : list val) : list val :=
  filter (λ item, keep_item min_ver item = true) items.

(** [item['key']] on line 23: a dict without the key raises [KeyError],
    anything that is not a dict raises [TypeError]. *)
Definition subscript_key (h : heap) (item : val) : result val :=
  match as_dict h item with
  | Some kvs =>
      match dict_get "key" kvs with
      | Some v => Ok v
      | None => Raise KeyError
      end
  | None => Raise TypeError
  end.

(** [parse_version(v)] for an arbitrary value: [path.split] raises
    [AttributeError] on anything that is not a string. *)
Definition parse_version_of (v : val) : result (option Version) :=
  match v with
  | VStr s => Ok (parse_version s)
  | _ => Raise AttributeError
  end.

(** Lines 21-23 *)
Fixpoint filter_dict (h : heap) (min_ver : Version) (items : list val)
  : result (list val) :=
  match items with
  | [] => Ok []
  | item :: rest =>
      k ← subscript_key h item;
      parsed ← parse_version_of k;
      kept ← filter_dict h min_ver rest;
      Ok (match parsed with
          | Some parsed_ver =>
              if version_ge parsed_ver min_ver then item :: kept else kept
          | None => kept
          end)
  end.

(** A [for] loop over [xs] whose body updates the store and may raise. *)
Fixpoint for_each {A : Type} (body : heap -> A -> result heap)
    (xs : list A) (h : heap) : result heap :=
  match xs with
  | [] => Ok h
  | x :: rest => h1 ← body h x; for_each body rest h1
  end.

(** One turn of the loop on lines 26-33, for the [i]-th item of the dict
    at [l].  The items are read from the current store: the loop iterates
    over the live dict while it assigns to its keys. *)
Definition dict_step (rec : heap -> val -> result heap)
    (min_ver : Version) (l : loc) (h : heap) (i : nat) : result heap :=
  match h !! l with
  | Some (ODict kvs) =>
      match kvs !! i with
      | Some (k, value) =>
          match as_list h value with
          | Some items =>
              if bool_decide (k ∈ filtered_keys) then
                let '(h1, new) := alloc h (OList (filter_list min_ver items)) in
                Ok (store_item h1 l k new)
              else if decide (k = "wrong_owner") then
                kept ← filter_dict h min_ver items;
                let '(h1, new) := alloc h (OList kept) in
                Ok (store_item h1 l k new)
              else Ok h
          | None =>
              match as_dict h value with
              | Some _ => rec h value
              | None => Ok h
              end
          end
      | None => Ok h
      end
  | _ => Ok h
  end.

(** One turn of the loop on lines 35-37. *)
Definition list_step (rec : heap -> val -> result heap)
    (h : heap) (item : val) : result heap :=
  match as_dict h item with
  | Some _ => rec h item
  | None => Ok h
  end.

(** Lines 14-37, with the recursive calls left open.  A list is never
    assigned to, so the loop over a list takes its elements once. *)
Definition filter_versions_body (rec : heap -> val -> result heap)
    (h : heap) (data : val) (min_version : string) : result heap :=
  match version_parse min_version with
  | None => Raise InvalidVersion
  | Some min_ver =>
      match data with
      | VRef l =>
          match h !! l with
          | Some (ODict kvs) =>
              for_each (dict_step rec min_ver l) (seq 0 (length kvs)) h
          | Some (OList xs) => for_each (list_step rec) xs h
          | None => Ok h
          end
      | _ => Ok h
      end
  end.

(** [filter_versions(data, min_version)] returns nothing; its outcome is
    the store it leaves.  [depth] is the number of nested calls the
    interpreter still allows: Python raises [RecursionError] beyond it. *)
Fixpoint filter_versions (depth : nat) (h : heap) (data : val)
    (min_version : string) : result heap :=
  match depth with
  | 0 => Raise RecursionError
  | S d =>
      filter_versions_body (λ h' v, filter_versions d h' v min_version)
                           h data min_version
  end.
End Filter.

(** *** JSON documents, [json.load] and [json.dump] *)

#[local] Set Warnings "-register-all".
Inductive json : Type :=
  | JNull
  | JBool (b : bool)
  | JNum (n : Z)
  | JStr (s : string)
  | JArr (elems : list json)
  | JObj (members : list (string * json)).

(** The elements of an array and the members of an object, loaded from
    left to right; a repeated member name keeps its first position and its
    last value. *)
Definition load_elems (load : json → heap → heap * val)
  : list json → heap → heap * list val :=
  fix go js h :=
    match js with
    | [] => (h, [])
    | j :: js' =>
        let '(h1, v) := load j h in
        let '(h2, vs) := go js' h1 in
        (h2, v :: vs)
    end.

Definition load_members (load : json → heap → heap * val)
  : list (string * json) → heap → list (string * val)
    → heap * list (string * val) :=
  fix go ms h acc :=
    match ms with
    | [] => (h, acc)
    | (k, j) :: ms' =>
        let '(h1, v) := load j h in
        go ms' h1 (dict_set k v acc)
    end.

(** [json.load]: every array and object of the document becomes a new
    list or dict. *)
Fixpoint load (j : json) (h : heap) : heap * val :=
  match j with
  | JNull => (h, VNone)
  | JBool b => (h, VBool b)
  | JNum n => (h, VNum n)
  | JStr s => (h, VStr s)
  | JArr elems =>
      let '(h1, vs) := load_elems load elems h in
      alloc h1 (OList vs)
  | JObj members =>
      let '(h1, kvs) := load_members load members h [] in
      alloc h1 (ODict kvs)
  end.

(** [json.dump] of the value [v]; [None] when the nesting exceeds
    [depth]. *)
Fixpoint dump (depth : nat) (h : heap) (v : val) : option json :=
  match depth with
  | 0 => None
  | S d =>
      match v with
      | VNone => Some JNull
      | VBool b => Some (JBool b)
      | VNum n => Some (JNum n)
      | VStr s => Some (JStr s)
      | VRef l =>
          match h !! l with
          | Some (OList xs) => JArr <$> mapM (dump d h) xs
          | Some (ODict kvs) =>
              JObj <$> mapM (λ kv, pair kv.1 <$> dump d h kv.2) kvs
          | None => None
          end
      end
  end.

Section Main.
Context `{Packaging}.

(** Python's default recursion limit. *)
Definition recursion_limit : nat := 1000.

(** [main], lines 42-53, from the document read to the document
    written: the object that was loaded is the one that is dumped. *)
Definition main (input : json) : result (option json) :=
  let min_version := "1.14.3" in
  let '(h, comparison_results) := load input [] in
  h' ← filter_versions recursion_limit h comparison_results min_version;
  Ok (dump recursion_limit h' comparison_results).
End Main.
End VersionGate.

(** *** Release numbers

    [packaging.version] is not part of the repository.  The specification
    asks for "standard dotted-release-number semantics (numeric segment-wise
    comparison, e.g. 1.14.3 < 1.14.10)"; this module is a comparator of that
    kind. *)
Module Release.
Import PyStr.

Definition digit_of (c : ascii) : option N :=
  let n := N_of_ascii c in
  if decide (48 <= n <= 57)%N then Some (n - 48)%N else None.

(** The value of a non-empty string of decimal digits. *)
Fixpoint number_go (acc : N) (s : string) : option N :=
  match s with
  | EmptyString => Some acc
  | String c s' =>
      match digit_of c with
      | Some d => number_go (10 * acc + d)%N s'
      | None => None
      end
  end.

Definition number (s : string) : option N :=
  match s with
  | EmptyString => None
  | _ => number_go 0%N s
  end.

Definition strip_prefix_v (s : string) : string :=
  match s with
  | String c s' =>
      if Ascii.eqb c "v" || Ascii.eqb c "V" then s' else s
  | EmptyString => s
  end.

(** Modelled from the spec: [packaging.version.parse], which is missing
    from the sources.  A release is a dotted sequence of decimal numbers
    with an optional leading [v]; every other string is rejected, which
    stands for [InvalidVersion]. *)
Definition parse (s : string) : option (list N) :=
  mapM number (split "." (strip_prefix_v s)).

Definition all_zero (a : list N) : bool := forallb (N.eqb 0) a.

(** Modelled from the spec: the ordering of [packaging.version.Version],
    which is missing from the sources.  Releases are compared number by
    number, the shorter one padded with zeros. *)
Fixpoint compare (a b : list N) : comparison :=
  match a, b with
  | [], _ => if all_zero b then Eq else Lt
  | _, [] => if all_zero a then Eq else Gt
  | x :: a', y :: b' =>
      match N.compare x y with Eq => compare a' b' | c => c end
  end.

(** Modelled from the spec: [>=] on [packaging.version.Version]. *)
Definition ge (a b : list N) : bool :=
  match compare a b with Lt => false | _ => true end.

Definition packaging : Packaging :=
  {| Version := list N; version_parse := parse; version_ge := ge |}.
End Release.

(** ** Notions used to state the properties *)

(** Two lists of path segments that are identical except, possibly, for the
    second-to-last segment. *)
Definition same_but_penultimate (a b : list string) : Prop :=
  length a = length b ∧ ∀ i, S (S i) ≠ length a → a !! i = b !! i.

(** *** What a call of the filter may change in the store *)

Module Frame.
Import VersionGate.

(** The keys of a Python dict are distinct. *)
Definition heap_ok (h : heap) : Prop :=
  Forall (λ o, match o with
               | ODict kvs => NoDup kvs.*1
               | OList _ => True
               end) h.

(** The keys under which the filter assigns. *)
Definition assigned_key (k : string) : Prop :=
  k ∈ filtered_keys ∨ k = "wrong_owner".

(** An item of a dict before and after: the key stays, and the value is
    either the same or, under an assigned key, a list was replaced by a
    newly created list whose elements are a sub-list of its elements. *)
Definition item_evolves (h h' : heap) (kv kv' : string * val) : Prop :=
  kv'.1 = kv.1
  ∧ (kv'.2 = kv.2
     ∨ ∃ xs ys l',
         assigned_key kv.1
         ∧ as_list h' kv.2 = Some xs
         ∧ kv'.2 = VRef l' ∧ length h ≤ l'
         ∧ h' !! l' = Some (OList ys)
         ∧ ys `sublist_of` xs).

(** An object before and after: a list is never changed, a dict keeps its
    keys in their order. *)
Definition object_evolves (h h' : heap) (o o' : obj) : Prop :=
  match o, o' with
  | OList xs, OList xs' => xs' = xs
  | ODict kvs, ODict kvs' => Forall2 (item_evolves h h') kvs kvs'
  | _, _ => False
  end.

(** The store before and after: every object is still at its location. *)
Definition heap_evolves (h h' : heap) : Prop :=
  length h ≤ length h'
  ∧ ∀ l o, h !! l = Some o →
      ∃ o', h' !! l = Some o' ∧ object_evolves h h' o o'.

(** A store update that respects the two notions above. *)
Definition preserving (f : heap → result heap) : Prop :=
  ∀ h h', heap_ok h → f h = Ok h' → heap_evolves h h' ∧ heap_ok h'.
End Frame.

(** *** Sample documents *)

Module Samples.
Import VersionGate.

Definition path_1_14_2 : string :=
  "aws/service/bottlerocket/aws-ecs-1/x86_64/1.14.2/image_id".
Definition path_1_14_10 : string :=
  "aws/service/bottlerocket/aws-ecs-1/x86_64/1.14.10/image_id".
Definition path_1_15_0 : string :=
  "aws/service/bottlerocket/aws-ecs-1/x86_64/1.15.0/image_id".
Definition path_latest : string :=
  "aws/service/bottlerocket/aws-ecs-1/x86_64/latest/image_id".

(** An entry as [compare_region_results] records it. *)
Definition mismatch_entry : json :=
  JObj [("key", JStr path_1_15_0); ("s3_value", JStr "ami-1");
        ("ssm_value", JStr "ami-2")].

Definition mismatched_doc : json := JObj [("mismatched", JArr [mismatch_entry])].

(** A region's comparison result, as [compare_region_results] builds it. *)
Definition comparison_doc : json :=
  JObj [("matching", JArr [JStr path_1_14_2; JStr path_1_14_10;
                           JStr path_latest]);
        ("mismatched", JArr [mismatch_entry]);
        ("only_in_s3", JArr []);
        ("only_in_ssm", JArr [])].

Definition wrong_owner_doc : json :=
  JObj [("wrong_owner", JArr [mismatch_entry])].

Definition matching_doc : json :=
  JObj [("matching", JArr [JStr path_1_14_2; JStr path_1_14_10;
                           JStr path_latest])].
End Samples.

(** ** Further Python [str] operations *)

Module PyText.

(** [s.endswith(suffix)]: some tail of [s] is [suffix]. *)
Fixpoint endswith (suffix s : string) : bool :=
  String.eqb s suffix
  || match s with
     | String _ s' => endswith suffix s'
     | EmptyString => false
     end.

(** [s.startswith(prefix)] *)
Fixpoint startswith (prefix s : string) : bool :=
  match prefix, s with
  | EmptyString, _ => true
  | String c p', String c' s' => Ascii.eqb c' c && startswith p' s'
  | String _ _, EmptyString => false
  end.

(** [s.lstrip(c)] for a one-character [c] *)
Fixpoint lstrip (c : ascii) (s : string) : string :=
  match s with
  | String c' s' => if Ascii.eqb c' c then lstrip c s' else s
  | EmptyString => EmptyString
  end.

End PyText.

(** ** comparenew.py: [main]

    The part of [main] between the loading of the S3 results and the
    writing of the report (lines 101-135). *)

Module CompareMain.
Import Reconcile.
Section Main.
Context {V : Type} `{EqDecision V}.

(** The iteration orders of a [set] and of the keys of the S3 results. *)
Variable set_iter : gset string -> list string.
Variable dict_keys : gmap string (gmap string V) -> list string.

(** [get_ssm_parameters_for_region(region, use_cache)], which reads a cache
    file or calls the AWS CLI: the parameters it returns for a region. *)
Variable get_ssm_parameters_for_region : string -> gmap string V.

(** [comparison['summary']] *)
Record summary : Type := Summary {
  total_matching : nat;
  total_mismatched : nat;
  total_only_in_s3 : nat;
  total_only_in_ssm : nat
}.

(** The [comparison] dict of lines 109-117. *)
Record report : Type := Report {
  by_region : gmap string (comparison V);
  report_summary : summary
}.

Definition empty_report : report := Report ∅ (Summary 0 0 0 0).

(** The body of the loop, lines 120-135. *)
Definition process_region (s3_results : gmap string (gmap string V))
    (c : report) (region : string) : report :=
  match s3_results !! region with
  | None => c
  | Some s3_data =>
      let ssm_data := get_ssm_parameters_for_region region in
      let region_comparison := compare_region_results set_iter s3_data ssm_data in
      Report (<[region := region_comparison]> (by_region c))
             (Summary
                (total_matching (report_summary c)
                 + length (matching region_comparison))
                (total_mismatched (report_summary c)
                 + length (mismatched region_comparison))
                (total_only_in_s3 (report_summary c)
                 + length (only_in_s3 region_comparison))
                (total_only_in_ssm (report_summary c)
                 + length (only_in_ssm region_comparison)))
  end.

(** Line 107: the regions given on the command line, or else every region
    of the S3 results. *)
Definition regions_to_process (s3_results : gmap string (gmap string V))
    (regions : option (list string)) : list string :=
  match regions with
  | Some (r :: rs) => r :: rs
  | _ => dict_keys s3_results
  end.

(** [None] is the early return of lines 101-103, which writes no report. *)
Definition main (s3_results : gmap string (gmap string V))
    (regions : option (list string)) : option report :=
  if decide (s3_results = ∅) then None
  else Some (foldl (process_region s3_results) empty_report
                   (regions_to_process s3_results regions)).

(** The number of keys a region's comparison lists. *)
Definition listed (c : comparison V) : nat :=
  length (matching c) + length (mismatched c)
  + length (only_in_s3 c) + length (only_in_ssm c).

Definition summary_total (s : summary) : nat :=
  total_matching s + total_mismatched s
  + total_only_in_s3 s + total_only_in_ssm s.
End Main.
End CompareMain.

(** *** Notions used to state properties of the comparison *)

Module ReportNotions.
Import Reconcile.
Section Notions.
Context {V : Type}.

(** A comparison read from the other side: the values of every mismatch
    and the two one-sided lists change places. *)
Definition swap_sides (c : comparison V) : comparison V :=
  Comparison (matching c)
             ((λ m, Mismatch (key m) (ssm_value m) (s3_value m))
                <$> mismatched c)
             (only_in_ssm c) (only_in_s3 c).

(** Two comparisons that list the same entries, each list in whatever
    order. *)
Definition same_entries (c c' : comparison V) : Prop :=
  matching c ≡ₚ matching c'
  ∧ mismatched c ≡ₚ mismatched c'
  ∧ only_in_s3 c ≡ₚ only_in_s3 c'
  ∧ only_in_ssm c ≡ₚ only_in_ssm c'.

(** The sum of a count over the regions of a report. *)
Definition sum_over_regions (f : comparison V → nat)
    (m : gmap string (comparison V)) : nat :=
  sum_list_with f (map_to_list m).*2.
End Notions.
End ReportNotions.

Module ReportTotals.
Import Reconcile ReportNotions CompareMain.

(** The four totals of a report are the sums of the lengths of the lists
    of its regions. *)
Definition totals_add_up {V : Type} (c : report (V := V)) : Prop :=
  total_matching (report_summary c)
    = sum_over_regions (λ rc, length (matching rc)) (by_region c)
  ∧ total_mismatched (report_summary c)
    = sum_over_regions (λ rc, length (mismatched rc)) (by_region c)
  ∧ total_only_in_s3 (report_summary c)
    = sum_over_regions (λ rc, length (only_in_s3 rc)) (by_region c)
  ∧ total_only_in_ssm (report_summary c)
    = sum_over_regions (λ rc, length (only_in_ssm rc)) (by_region c).
End ReportTotals.

(** *** Notions used to state properties of the filter *)

Module FilterNotions.
Import VersionGate.
Section Notions.
Context `{Packaging}.

(** A structured entry that [filter_dict] can read: a dict with a string
    under [key]. *)
Definition readable_entry (h : heap) (item : val) : Prop :=
  ∃ kvs path, as_dict h item = Some kvs
              ∧ dict_get "key" kvs = Some (VStr path).

(** The entry's [key] holds a path whose version parses and is at least
    [min_ver]. *)
Definition entry_passes (h : heap) (min_ver : Version) (item : val) : bool :=
  match as_dict h item with
  | Some kvs =>
      match dict_get "key" kvs with
      | Some (VStr path) => keep_item min_ver (VStr path)
      | _ => false
      end
  | None => false
  end.
End Notions.
End FilterNotions.

(** ** getkeyvalues.py: [process_ami_json] and [merge_results] *)

Module AmiMapping.
Import Translator VersionGate.

(** The mapping of a region, from parameter path to image id: the value is
    whatever [ami_info.get('id')] returns, [JNull] standing for [None].
    Then the mappings of all regions. *)
Abbreviation region_mapping := (gmap string json).
Abbreviation results := (gmap string region_mapping).

(** What lines 173-175 make of the file: [get_object] raises
    [ClientError], or [decode] finds bytes that are not UTF-8, or
    [json.loads] finds text that is not JSON, or it returns a value. *)
Inductive ami_file : Type :=
  | Unreadable
  | Undecodable
  | Malformed
  | Document (ami_data : json).

(** The items of the dict that [json.loads] makes of an object: a repeated
    member name keeps its first position and its last value. *)
Fixpoint set_item (k : string) (v : json) (items : list (string * json))
  : list (string * json) :=
  match items with
  | [] => [(k, v)]
  | (k', v') :: rest =>
      if decide (k' = k) then (k, v) :: rest
      else (k', v') :: set_item k v rest
  end.

Definition loaded_items (members : list (string * json))
  : list (string * json) :=
  foldl (λ items member, set_item member.1 member.2 items) [] members.

Fixpoint get_item (k : string) (items : list (string * json))
  : option json :=
  match items with
  | [] => None
  | (k', v) :: rest => if decide (k' = k) then Some v else get_item k rest
  end.

(** [ami_info.get(key, default)]: only a dict has a [get]. *)
Definition get (ami_info : json) (key : string) (default_value : json)
  : result json :=
  match ami_info with
  | JObj members =>
      Ok (default default_value (get_item key (loaded_items members)))
  | _ => Raise AttributeError
  end.

(** The call of the translator on what [get] returned: only a [str] has
    the [split] of line 120. *)
Definition translate (ami_name : json) (include_commit : bool)
  : result (option string) :=
  match ami_name with
  | JStr ami_name => get_ssm_parameter_name ami_name include_commit
  | _ => Raise AttributeError
  end.

(** Truth value of what the translator returned (lines 187 and 189). *)
Definition truthy (name : option string) : bool :=
  match name with
  | Some EmptyString => false
  | Some _ => true
  | None => false
  end.

(** [simplified_ami_data[region][path] = value] *)
Definition set_path (data : results) (region path : string)
    (value : json) : results :=
  <[region := <[path := value]> (default ∅ (data !! region))]> data.

(** Lines 187-190, for one of the two parameter names. *)
Definition add_parameter (data : results) (region : string)
    (name : option string) (ami_info : json) : result results :=
  match name with
  | Some path =>
      if truthy name then
        value ← get ami_info "id" JNull;
        Ok (set_path data region path value)
      else Ok data
  | None => Ok data
  end.

(** The body of the loop, lines 179-190.  No exception is caught here. *)
Definition process_entry (simplified_ami_data : results)
    (entry : string * json) : result results :=
  let '(region, ami_info) := entry in
  let simplified_ami_data :=
    if decide (is_Some (simplified_ami_data !! region))
    then simplified_ami_data
    else <[region := ∅]> simplified_ami_data in
  ami_name ← get ami_info "name" (JStr "");
  ssm_param_name_full ← translate ami_name true;
  ami_name ← get ami_info "name" (JStr "");
  ssm_param_name_version ← translate ami_name false;
  simplified_ami_data ←
    add_parameter simplified_ami_data region ssm_param_name_full ami_info;
  add_parameter simplified_ami_data region ssm_param_name_version ami_info.

Fixpoint process_entries (simplified_ami_data : results)
    (ami_data : list (string * json)) : result results :=
  match ami_data with
  | [] => Ok simplified_ami_data
  | entry :: rest =>
      data ← process_entry simplified_ami_data entry;
      process_entries data rest
  end.

(** What a call does: it returns ([None] after a [ClientError], the only
    exception it catches), or an exception leaves it. *)
Inductive outcome : Type :=
  | Returned (simplified_ami_data : option results)
  | Raised (e : exn)
  | RaisedUnicodeDecodeError
  | RaisedJSONDecodeError.

(** [process_ami_json], lines 171-195.  [ami_data.items()] needs a
    dict. *)
Definition process_ami_json (file : ami_file) : outcome :=
  match file with
  | Unreadable => Returned None
  | Undecodable => RaisedUnicodeDecodeError
  | Malformed => RaisedJSONDecodeError
  | Document (JObj members) =>
      match process_entries ∅ (loaded_items members) with
      | Ok simplified_ami_data => Returned (Some simplified_ami_data)
      | Raise e => Raised e
      end
  | Document _ => Raised AttributeError
  end.

(** [final_results[region].update(region_data)], lines 235-237. *)
Definition merge_region (region : string) (region_data : region_mapping)
    (final_results : results) : results :=
  <[region := region_data ∪ default ∅ (final_results !! region)]>
    final_results.

(** The inner loop, over the regions of one tag's result. *)
Definition merge_tag_result (final_results tag_result : results) : results :=
  map_fold merge_region final_results tag_result.

(** [merge_results], lines 228-239: [None] and empty results are skipped
    (line 233). *)
Definition merge_results (all_results : list (option results)) : results :=
  foldl (λ final_results tag_result,
           match tag_result with
           | Some tag_result =>
               if decide (tag_result = ∅) then final_results
               else merge_tag_result final_results tag_result
           | None => final_results
           end) ∅ all_results.

(** The image id a result holds for a path of a region. *)
Definition image_of (data : results) (region path : string)
  : option json :=
  data !! region ≫= (λ mapping, mapping !! path).

(** The last of the results that holds the path of the region, and what it
    holds. *)
Fixpoint latest (all_results : list (option results)) (region path : string)
  : option json :=
  match all_results with
  | [] => None
  | tag_result :: rest =>
      match latest rest region path with
      | Some value => Some value
      | None => tag_result ≫= (λ data, image_of data region path)
      end
  end.
End AmiMapping.

(** *** Notions used to state properties of the AMI mapping *)

Module AmiNotions.
Import Translator VersionGate AmiMapping.

(** The name of an entry of the AMI file that is a dict with a [str]
    under [name], the empty name when the dict has no [name]. *)
Definition entry_name (info : json) : option string :=
  match info with
  | JObj members =>
      match default (JStr "") (get_item "name" (loaded_items members)) with
      | JStr ami_name => Some ami_name
      | _ => None
      end
  | _ => None
  end.

(** The id of an entry that is a dict. *)
Definition entry_id (info : json) : json :=
  match info with
  | JObj members => default JNull (get_item "id" (loaded_items members))
  | _ => JNull
  end.

(** The mapping an entry of the AMI file stands for: its id under both
    parameter paths of its name, or nothing when the name is not
    translated. *)
Definition entry_mapping (info : json) : region_mapping :=
  match entry_name info with
  | Some ami_name =>
      match get_ssm_parameter_name ami_name true,
            get_ssm_parameter_name ami_name false with
      | Ok (Some full), Ok (Some version) =>
          <[version := entry_id info]> (<[full := entry_id info]> ∅)
      | _, _ => ∅
      end
  | None => ∅
  end.

(** The exception an entry makes the loop end with, if any:
    [AttributeError] for an entry that is not a dict or whose name is not a
    [str], and what the translator raises on the name. *)
Definition entry_failure (info : json) : option exn :=
  match entry_name info with
  | Some ami_name =>
      match get_ssm_parameter_name ami_name true with
      | Raise e => Some e
      | Ok _ => None
      end
  | None => Some AttributeError
  end.

(** A parameter path as the translator builds them. *)
Definition image_id_path (path : string) : Prop :=
  PyText.startswith "aws/service/bottlerocket/" path = true
  ∧ PyText.endswith "/image_id" path = true.
End AmiNotions.

(** ** comparenew.py: [get_ssm_parameters_for_region]

    The function reads and writes a cache file and runs the AWS CLI.  The
    files and the CLI are arguments of the model: [files] maps a file name
    to what the file holds, and [run] gives, for a command line, what
    [subprocess.run] and [json.loads] make of it. *)

Module SsmFetch.

(** An element of [response['Parameters']]; the CLI gives every parameter
    a [Name] and a [Value]. *)
Record param : Type := Param { Name : string; Value : string }.

(** The output of one call of the CLI: [response.get('Parameters')] and
    the [NextToken], [None] when the member is absent. *)
Record response : Type := Response {
  Parameters : option (list param);
  NextToken : option string
}.

(** [CalledProcessError], or the standard output, [None] when it is not
    JSON ([JSONDecodeError]). *)
Inductive cli_result : Type :=
  | CalledProcessError
  | Stdout (parsed : option response).

(** What a cache file holds: a JSON object of strings, or something that is
    not JSON. *)
Inductive file : Type :=
  | Json (content : gmap string string)
  | NotJson.

Abbreviation files := (gmap string file).

(** Line 21 *)
Definition cache_file (region : string) : string :=
  "ssm_cache_" +:+ region +:+ ".json".

(** Lines 30-35 *)
Definition base_cmd (region : string) : list string :=
  ["aws"; "ssm"; "get-parameters-by-path";
   "--path"; "/aws/service/bottlerocket";
   "--recursive";
   "--region"; region].

(** Lines 40-42 and 48-50 *)
Definition add_parameters (parameters : gmap string string) (r : response)
  : gmap string string :=
  foldl (λ parameters p,
           if PyText.endswith "/image_id" (Name p)
           then <[PyText.lstrip "/" (Name p) := Value p]> parameters
           else parameters)
        parameters (default [] (Parameters r)).

(** How the [try] block ends: with the parameters, or in one of the two
    [except] clauses. *)
Inductive fetch_end : Type :=
  | Fetched (parameters : gmap string string)
  | Failed.

(** The [while] loop, lines 44-50.  [cmd.extend] keeps the tokens of the
    pages before.  The loop runs as long as the CLI returns a [NextToken];
    [None] stands for a loop that has not ended after [fuel] pages. *)
Fixpoint next_pages (fuel : nat) (run : list string -> cli_result)
    (cmd : list string) (r : response) (parameters : gmap string string)
  : option fetch_end :=
  match NextToken r with
  | None => Some (Fetched parameters)
  | Some token =>
      match fuel with
      | 0 => None
      | S fuel' =>
          let cmd := cmd ++ ["--next-token"; token] in
          match run cmd with
          | CalledProcessError => Some Failed
          | Stdout None => Some Failed
          | Stdout (Some r') =>
              next_pages fuel' run cmd r' (add_parameters parameters r')
          end
      end
  end.

(** What a call does: it returns a mapping, or the [JSONDecodeError] of an
    unreadable cache file goes uncaught (the cache is read before the
    [try]). *)
Inductive outcome : Type :=
  | Returns (parameters : gmap string string)
  | RaisesJSONDecodeError.

(** Lines 19-63: the outcome and the files after the call. *)
Definition get_ssm_parameters_for_region (fuel : nat)
    (run : list string -> cli_result) (fs : files)
    (region : string) (use_cache : bool) : option (outcome * files) :=
  match (if use_cache then fs !! cache_file region else None) with
  | Some (Json content) => Some (Returns content, fs)
  | Some NotJson => Some (RaisesJSONDecodeError, fs)
  | None =>
      let cmd := base_cmd region in
      match run cmd with
      | CalledProcessError => Some (Returns ∅, fs)
      | Stdout None => Some (Returns ∅, fs)
      | Stdout (Some r) =>
          match next_pages fuel run cmd r (add_parameters ∅ r) with
          | None => None
          | Some Failed => Some (Returns ∅, fs)
          | Some (Fetched parameters) =>
              Some (Returns parameters,
                    <[cache_file region := Json parameters]> fs)
          end
      end
  end.
End SsmFetch.

(** *** Sample answers of the CLI *)

Module SsmSamples.
Import SsmFetch.

Definition image_parameter : param :=
  Param "/aws/service/bottlerocket/aws-ecs-1/x86_64/1.14.3/image_id" "ami-1".

(** A CLI that answers the first request with one page and no token. *)
Definition one_page_cli (cmd : list string) : cli_result :=
  if decide (cmd = base_cmd "us-west-2")
  then Stdout (Some (Response (Some [image_parameter]) None))
  else CalledProcessError.

(** A CLI that answers the first request with a page and a token, and
    fails on the next one. *)
Definition failing_second_page_cli (cmd : list string) : cli_result :=
  if decide (cmd = base_cmd "us-west-2")
  then Stdout (Some (Response (Some [image_parameter]) (Some "t1")))
  else CalledProcessError.
End SsmSamples.

(** * Properties *)

(** ** Strings and lists *)

Section StringFacts.
Import PyStr PyList.

Lemma split_nonempty sep s : PyStr.split sep s ≠ [].
Proof. destruct s as [|c s]; simpl; [done|]. by repeat case_match. Qed.

Lemma split_length_pos sep s : 0 < length (PyStr.split sep s).
Proof.
  pose proof (split_nonempty sep s).
  destruct (PyStr.split sep s); simpl; [done | lia].
Qed.

(** Splitting at a separator that is known to be there. *)
Lemma split_app_sep sep a b :
  PyStr.split sep (a +:+ String sep b)
  = PyStr.split sep a ++ PyStr.split sep b.
Proof.
  induction a as [|c a IH]; simpl.
  - by rewrite Ascii.eqb_refl.
  - rewrite IH. destruct (Ascii.eqb c sep); [done|].
    pose proof (split_nonempty sep a).
    by destruct (PyStr.split sep a).
Qed.

Lemma split_without_sep sep s :
  contains sep s = false → PyStr.split sep s = [s].
Proof.
  induction s as [|c s IH]; simpl; [done|].
  intros [Hc Hs]%orb_false_iff. by rewrite Hc, (IH Hs).
Qed.

(** A suffix without the separator is appended to the last part. *)
Lemma split_app_without sep a b :
  contains sep b = false →
  ∃ ts t, PyStr.split sep a = ts ++ [t]
          ∧ PyStr.split sep (a +:+ b) = ts ++ [t +:+ b].
Proof.
  intros Hb. induction a as [|c a (ts & t & Ha & Hab)]; simpl.
  - exists [], "". split; [done|]. apply (split_without_sep _ _ Hb).
  - rewrite Ha, Hab. destruct (Ascii.eqb c sep).
    + by exists ("" :: ts), t.
    + destruct ts as [|t0 ts]; simpl.
      * by exists [], (String c t).
      * by exists (String c t0 :: ts), t.
Qed.

(** Every separator adds a part. *)
Lemma split_length_app sep a b :
  length (PyStr.split sep (a +:+ b)) + 1
  = length (PyStr.split sep a) + length (PyStr.split sep b).
Proof.
  induction a as [|c a IH]; [change ("" +:+ b) with b; simpl; lia|]. simpl.
  pose proof (split_nonempty sep a). pose proof (split_nonempty sep (a +:+ b)).
  destruct (Ascii.eqb c sep); simpl; [lia|].
  destruct (PyStr.split sep a), (PyStr.split sep (a +:+ b)); simpl in *;
    (done || lia).
Qed.

Lemma split_length_with sep s :
  contains sep s = true → 2 ≤ length (PyStr.split sep s).
Proof.
  induction s as [|c s IH]; simpl; [done|].
  pose proof (split_length_pos sep s).
  destruct (Ascii.eqb c sep); simpl; [lia|].
  intros Hs. specialize (IH Hs).
  destruct (PyStr.split sep s); simpl in *; lia.
Qed.

Lemma contains_app c a b :
  contains c (a +:+ b) = contains c a || contains c b.
Proof. induction a as [|x a IH]; simpl; [done|]. by rewrite IH, orb_assoc. Qed.

(** The tokens of a string have no more characters than the string. *)
Lemma split_tokens_without c sep s :
  contains c s = false →
  Forall (λ t, contains c t = false) (PyStr.split sep s).
Proof.
  induction s as [|x s IH]; simpl.
  - by repeat constructor.
  - intros [Hx Hs]%orb_false_iff. specialize (IH Hs).
    destruct (Ascii.eqb x sep); [by constructor|].
    destruct (PyStr.split sep s) as [|t ts].
    + repeat constructor. simpl. by rewrite Hx.
    + apply Forall_cons in IH as [Ht Hts]. constructor; [|done].
      simpl. by rewrite Hx, Ht.
Qed.

Lemma join_without c sep parts :
  contains c sep = false →
  Forall (λ t, contains c t = false) parts →
  contains c (join sep parts) = false.
Proof.
  intros Hsep. induction 1 as [|t ts Ht Hts IH]; simpl; [done|].
  destruct ts; [done|].
  by rewrite !contains_app, Ht, Hsep, IH.
Qed.

Lemma prefix_without c n s :
  contains c s = false → contains c (prefix n s) = false.
Proof.
  revert s. induction n as [|n IH]; intros [|x s]; simpl; try done.
  intros [Hx Hs]%orb_false_iff. by rewrite Hx, IH.
Qed.

Lemma tail_without c s : contains c s = false → contains c (tail s) = false.
Proof. destruct s; simpl; [done|]. by intros [_ ?]%orb_false_iff. Qed.

Lemma mem_true {A} `{EqDecision A} (x : A) l : mem x l = true ↔ x ∈ l.
Proof. unfold mem. by rewrite bool_decide_eq_true. Qed.


Lemma elem_of_insert_at {A} (x y : A) i l : x ∈ l → x ∈ insert_at i y l.
Proof.
  unfold insert_at. rewrite <- (take_drop i l) at 1.
  rewrite !elem_of_app, elem_of_cons. tauto.
Qed.

Lemma length_insert_at {A} (y : A) i l :
  length (insert_at i y l) = S (length l).
Proof.
  unfold insert_at. rewrite length_app. simpl.
  rewrite length_take, length_drop. lia.
Qed.
End StringFacts.

(** ** The translator *)

Section TranslatorFacts.
Import PyStr PyList Translator.

(** The three outcomes of the translator, in terms of the parsed parts. *)
Lemma get_ssm_parameter_name_outcome name include_commit :
  get_ssm_parameter_name name include_commit =
    if decide (length (PyStr.split dash name) < 7) then Ok None
    else
      match corrected_parts name
              !! (variant_and_arch_index (corrected_parts name)).2 with
      | None => Raise IndexError
      | Some arch =>
          Ok (Some (path_of (variant_and_arch_index (corrected_parts name)).1
                            (convert_arch arch)
                            (version_string_of include_commit
                               (parsed_version name) (parsed_commit name))))
      end.
Proof.
  unfold get_ssm_parameter_name, parsed_version, parsed_commit,
    corrected_parts.
  case_decide; [done|].
  destruct (variant_and_arch_index _) as [variant arch_index]; simpl.
  destruct (_ !! arch_index); [|done].
  by destruct (version_and_commit _).
Qed.

Lemma elem_of_ensure_aws x parts : x ∈ parts → x ∈ ensure_aws parts.
Proof.
  unfold ensure_aws. case_decide; [done|]. apply elem_of_insert_at.
Qed.

Lemma variant_and_arch_index_nvidia parts :
  "nvidia" ∈ parts →
  variant_and_arch_index parts
  = (join "-" (slice 2 (index "nvidia" parts + 1) parts),
     index "nvidia" parts + 1).
Proof.
  intros Hin%mem_true. unfold variant_and_arch_index. by rewrite Hin.
Qed.

(** The translator never raises anything but the [IndexError] of the
    architecture subscript, and returns [None] exactly for short names. *)
Lemma get_ssm_parameter_name_cases name include_commit :
  (length (PyStr.split dash name) < 7
   ∧ get_ssm_parameter_name name include_commit = Ok None)
  ∨ (7 ≤ length (PyStr.split dash name)
     ∧ length (corrected_parts name)
         ≤ (variant_and_arch_index (corrected_parts name)).2
     ∧ get_ssm_parameter_name name include_commit = Raise IndexError)
  ∨ (7 ≤ length (PyStr.split dash name)
     ∧ ∃ path, get_ssm_parameter_name name include_commit = Ok (Some path)).
Proof.
  rewrite get_ssm_parameter_name_outcome.
  case_decide; [left; done|right].
  destruct (_ !! _) as [arch|] eqn:Harch.
  - right. split; [lia|eauto].
  - left. apply lookup_ge_None in Harch. split; [lia|done].
Qed.

(** A variant tag in the last position makes the architecture subscript
    fail. *)
Lemma trailing_nvidia_raises name include_commit :
  7 ≤ length (PyStr.split dash name) →
  "nvidia" ∈ corrected_parts name →
  index "nvidia" (corrected_parts name) + 1 = length (corrected_parts name) →
  get_ssm_parameter_name name include_commit = Raise IndexError.
Proof.
  intros Hlen Hin Hlast. rewrite get_ssm_parameter_name_outcome.
  case_decide; [lia|].
  rewrite (variant_and_arch_index_nvidia _ Hin); simpl.
  rewrite Hlast. by rewrite (proj2 (lookup_ge_None _ _)).
Qed.

(** C3: with seven tokens of which the last is [nvidia] the translator does
    not return a path, it raises [IndexError], for both values of
    [include_commit]. *)
Theorem translator_raises_on_trailing_nvidia :
  get_ssm_parameter_name "bottlerocket-aws-k8s-1.24-x86_64-v1.24.3-nvidia" true
    = Raise IndexError
  ∧ get_ssm_parameter_name "bottlerocket-aws-k8s-1.24-x86_64-v1.24.3-nvidia" false
    = Raise IndexError
  ∧ length (PyStr.split dash "bottlerocket-aws-k8s-1.24-x86_64-v1.24.3-nvidia") = 7.
Proof. by vm_compute. Qed.

(** C6: the end-to-end example of the specification. *)
Theorem translate_ecs_example :
  get_ssm_parameter_name "bottlerocket-aws-ecs-1-x86_64-v1.14.3-0a1b2c3d4e" true
    = Ok (Some "aws/service/bottlerocket/aws-ecs-1/x86_64/1.14.3-0a1b2c3d/image_id")
  ∧ get_ssm_parameter_name "bottlerocket-aws-ecs-1-x86_64-v1.14.3-0a1b2c3d4e" false
    = Ok (Some "aws/service/bottlerocket/aws-ecs-1/x86_64/1.14.3/image_id").
Proof. by vm_compute. Qed.



(** C10: a name of exactly six tokens without [aws] at index 2 is
    rejected, although the corrected token list would have seven. *)
Theorem six_tokens_rejected_before_aws_correction name include_commit :
  length (PyStr.split dash name) = 6 →
  PyStr.split dash name !! 2 ≠ Some "aws" →
  get_ssm_parameter_name name include_commit = Ok None
  ∧ length (corrected_parts name) = 7.
Proof.
  intros Hlen Haws. split.
  - unfold get_ssm_parameter_name. case_decide; [done|lia].
  - unfold corrected_parts, ensure_aws. case_decide; [done|].
    rewrite length_insert_at. lia.
Qed.

Lemma six_tokens_rejected_before_aws_correction_witness :
  get_ssm_parameter_name "bottlerocket-ecs-1-x86_64-v1.14.3-0a1b2c3d" true
    = Ok None
  ∧ length (corrected_parts "bottlerocket-ecs-1-x86_64-v1.14.3-0a1b2c3d") = 7.
Proof.
  apply (six_tokens_rejected_before_aws_correction
           "bottlerocket-ecs-1-x86_64-v1.14.3-0a1b2c3d" true).
  - reflexivity.
  - vm_compute. discriminate.
Defined.
End TranslatorFacts.

Section CommitQualification.
Import PyStr PyList Translator.

#[local] Abbreviation no_slash s := (contains slash s = false).

Lemma split_path_of variant arch version_string :
  no_slash variant → no_slash arch → no_slash version_string →
  PyStr.split slash (path_of variant arch version_string)
  = ["aws"; "service"; "bottlerocket"; variant; arch; version_string;
     "image_id"].
Proof.
  intros Hv Ha Hs.
  change (path_of variant arch version_string) with
    ("aws" +:+ String slash ("service" +:+ String slash ("bottlerocket"
       +:+ String slash (variant +:+ String slash (arch
       +:+ String slash (version_string +:+ String slash "image_id")))))).
  rewrite !split_app_sep.
  by rewrite (split_without_sep _ _ Hv), (split_without_sep _ _ Ha),
    (split_without_sep _ _ Hs).
Qed.

Lemma corrected_parts_no_slash name :
  no_slash name → Forall (λ t, no_slash t) (corrected_parts name).
Proof.
  intros Hname. unfold corrected_parts, ensure_aws, insert_at.
  pose proof (split_tokens_without slash dash name Hname) as Htok.
  case_decide; [done|].
  apply Forall_app. split; [by apply Forall_take|].
  constructor; [done|by apply Forall_drop].
Qed.

Lemma variant_no_slash parts :
  Forall (λ t, no_slash t) parts →
  no_slash (variant_and_arch_index parts).1.
Proof.
  intros Hparts. unfold variant_and_arch_index, slice.
  repeat case_match; simpl;
    by apply join_without; [|apply Forall_take, Forall_drop].
Qed.

Lemma convert_arch_no_slash arch : no_slash arch → no_slash (convert_arch arch).
Proof. unfold convert_arch. by case_decide. Qed.

Lemma last_no_slash (l : list string) t :
  Forall (λ t, no_slash t) l → last l = Some t → no_slash t.
Proof.
  intros Hl Hlast. rewrite last_lookup in Hlast.
  exact (Forall_lookup_1 (λ t, no_slash t) _ _ _ Hl Hlast).
Qed.

Lemma version_and_commit_no_slash version_parts :
  Forall (λ t, no_slash t) version_parts →
  no_slash (version_and_commit version_parts).1
  ∧ no_slash (version_and_commit version_parts).2.
Proof.
  intros Hvp. unfold version_and_commit, item_penultimate, item_last.
  case_decide; cbn [fst snd].
  - split.
    + destruct (length version_parts) as [|[|n]]; [done..|].
      destruct (version_parts !! n) as [t|] eqn:Ht; [|done].
      exact (Forall_lookup_1 (λ t, no_slash t) _ _ _ Hvp Ht).
    + apply prefix_without.
      destruct (last version_parts) as [t|] eqn:Ht; [|done].
      by eapply last_no_slash.
  - split; [done|].
    destruct (last version_parts) as [t|] eqn:Ht; [|done].
    apply prefix_without. by eapply last_no_slash.
Qed.

Lemma strip_v_no_slash version : no_slash version → no_slash (strip_v version).
Proof. unfold strip_v. case_match; [apply tail_without|done]. Qed.

Lemma parsed_no_slash name :
  no_slash name →
  no_slash (parsed_version name) ∧ no_slash (parsed_commit name).
Proof.
  intros Hname. unfold parsed_version, parsed_commit.
  pose proof (corrected_parts_no_slash name Hname) as Hparts.
  edestruct version_and_commit_no_slash as [Hv Hc];
    [|split; [apply strip_v_no_slash; exact Hv|exact Hc]].
  unfold version_parts_of. apply Forall_forall.
  intros t [_ Ht]%list_elem_of_filter. revert t Ht.
  by apply Forall_forall, Forall_drop.
Qed.

Lemma version_string_no_slash include_commit version commit_sha :
  no_slash version → no_slash commit_sha →
  no_slash (version_string_of include_commit version commit_sha).
Proof.
  intros Hv Hc. unfold version_string_of.
  destruct include_commit; [|done]. case_decide; [|done].
  by rewrite !contains_app, Hv, Hc.
Qed.

(** The segments of a path returned for a name without [/]. *)
Lemma translated_path_segments name include_commit path :
  no_slash name →
  get_ssm_parameter_name name include_commit = Ok (Some path) →
  ∃ variant arch,
    (variant, arch)
    = ((variant_and_arch_index (corrected_parts name)).1,
       convert_arch (default "" (corrected_parts name
         !! (variant_and_arch_index (corrected_parts name)).2)))
    ∧ path = path_of variant arch
               (version_string_of include_commit
                  (parsed_version name) (parsed_commit name))
    ∧ PyStr.split slash path
      = ["aws"; "service"; "bottlerocket"; variant; arch;
         version_string_of include_commit (parsed_version name)
                           (parsed_commit name);
         "image_id"].
Proof.
  intros Hname. rewrite get_ssm_parameter_name_outcome.
  case_decide as Hlen; [done|].
  destruct (_ !! _) as [arch|] eqn:Harch; [|done].
  intros [= <-].
  pose proof (corrected_parts_no_slash name Hname) as Hparts.
  destruct (parsed_no_slash name Hname) as [Hv Hc].
  eexists _, _. split; [done|]. split; [done|].
  apply split_path_of.
  - by apply variant_no_slash.
  - apply convert_arch_no_slash.
    exact (Forall_lookup_1 (λ t, no_slash t) _ _ _ Hparts Harch).
  - by apply version_string_no_slash.
Qed.

(** For every name that is translated, the two paths are built from the
    same variant and architecture, and are equal when the parsed version is
    the commit SHA prefix. *)
Lemma commit_qualification_same_variant_and_arch name p1 p2 :
  get_ssm_parameter_name name true = Ok (Some p1) →
  get_ssm_parameter_name name false = Ok (Some p2) →
  ∃ variant arch,
    p1 = path_of variant arch
           (version_string_of true (parsed_version name) (parsed_commit name))
    ∧ p2 = path_of variant arch (parsed_version name)
    ∧ (parsed_version name = parsed_commit name → p1 = p2).
Proof.
  rewrite !get_ssm_parameter_name_outcome.
  case_decide; [done|]. destruct (_ !! _) as [arch|]; [|done].
  intros [= <-] [= <-]. eexists _, _. split; [done|]. split; [done|].
  intros Heq. unfold version_string_of. by rewrite decide_False by tauto.
Qed.

(** C8, as stated, fails for a name with a [/] in its last token: the two
    paths then do not even have the same number of segments. *)
Lemma commit_qualification_slash_counterexample :
  ∃ p1 p2,
    get_ssm_parameter_name "bottlerocket-aws-ecs-1-x86_64-v1.14.3-fix/0a1b2c" true
      = Ok (Some p1)
    ∧ get_ssm_parameter_name "bottlerocket-aws-ecs-1-x86_64-v1.14.3-fix/0a1b2c" false
      = Ok (Some p2)
    ∧ ¬ same_but_penultimate (PyStr.split slash p1) (PyStr.split slash p2).
Proof.
  eexists _, _. split; [by vm_compute|]. split; [by vm_compute|].
  intros [Hlen _]. vm_compute in Hlen. discriminate.
Qed.

(** The segments of every path the translator builds. *)
Lemma split_path_of_segments variant arch version_string :
  PyStr.split slash (path_of variant arch version_string)
  = (["aws"; "service"; "bottlerocket"] ++ PyStr.split slash variant
       ++ PyStr.split slash arch)
    ++ PyStr.split slash version_string ++ ["image_id"].
Proof.
  change (path_of variant arch version_string) with
    ("aws" +:+ String slash ("service" +:+ String slash ("bottlerocket"
       +:+ String slash (variant +:+ String slash (arch
       +:+ String slash (version_string +:+ String slash "image_id")))))).
  rewrite !split_app_sep. by rewrite <- !app_assoc.
Qed.

Lemma same_but_penultimate_app (l : list string) x y z :
  same_but_penultimate (l ++ [x; z]) (l ++ [y; z]).
Proof.
  split; [by rewrite !length_app|].
  rewrite length_app. simpl. intros i Hi.
  destruct (decide (i < length l)) as [Hlt|Hge].
  - by rewrite !lookup_app_l.
  - rewrite !lookup_app_r by lia.
    destruct (i - length l) as [|[|n]] eqn:Hd; [lia|done..].
Qed.

Lemma item_penultimate_app (l : list string) x z :
  item_penultimate (l ++ [x; z]) = Some x.
Proof.
  unfold item_penultimate. rewrite length_app. simpl.
  replace (length l + 2) with (S (S (length l))) by lia.
  by rewrite lookup_app_r, Nat.sub_diag.
Qed.

(** C8 (amended): for every name that is translated, the paths with and
    without the commit are equal when the parsed version equals the commit
    SHA prefix; they are identical except for the second-to-last segment
    exactly when the parsed version equals the commit SHA prefix or the
    commit SHA prefix holds no [/]; and when neither the parsed version nor
    the commit SHA prefix holds a [/], the second-to-last segment of each
    path is its version string. *)
Theorem commit_qualification_changes_version_segment name p1 p2 :
  get_ssm_parameter_name name true = Ok (Some p1) →
  get_ssm_parameter_name name false = Ok (Some p2) →
  (parsed_version name = parsed_commit name → p1 = p2)
  ∧ (same_but_penultimate (PyStr.split slash p1) (PyStr.split slash p2)
     ↔ parsed_version name = parsed_commit name
       ∨ contains slash (parsed_commit name) = false)
  ∧ (contains slash (parsed_version name) = false →
     contains slash (parsed_commit name) = false →
     item_penultimate (PyStr.split slash p1)
     = Some (version_string_of true (parsed_version name)
                               (parsed_commit name))
     ∧ item_penultimate (PyStr.split slash p2) = Some (parsed_version name)).
Proof.
  intros H1 H2.
  destruct (commit_qualification_same_variant_and_arch _ _ _ H1 H2)
    as (variant & arch & -> & -> & Heq).
  split; [exact Heq|]. clear H1 H2 Heq.
  rewrite !split_path_of_segments.
  set (pre := ["aws"; "service"; "bottlerocket"] ++ PyStr.split slash variant
                ++ PyStr.split slash arch).
  set (version := parsed_version name). set (commit_sha := parsed_commit name).
  split.
  - unfold version_string_of.
    destruct (decide (version ≠ commit_sha)) as [Hne|Hsame].
    + assert (contains slash ("-" +:+ commit_sha) = contains slash commit_sha)
        as Hdash by done.
      split.
      * intros [Hlen _]. right.
        destruct (contains slash commit_sha) eqn:Hc; [|done].
        apply split_length_with in Hdash.
        pose proof (split_length_app slash version ("-" +:+ commit_sha)).
        rewrite !length_app in Hlen. simpl in Hlen. lia.
      * intros [?|Hc]; [done|]. rewrite Hc in Hdash.
        destruct (split_app_without slash version _ Hdash)
          as (ts & t & -> & ->).
        rewrite <- !(app_assoc ts), !(app_assoc pre ts).
        apply same_but_penultimate_app.
    + split; [intros _; left; by destruct (decide (version = commit_sha))|].
      by intros _.
  - intros Hv Hc. split.
    + rewrite (split_without_sep slash (version_string_of _ _ _))
        by by apply version_string_no_slash.
      apply item_penultimate_app.
    + rewrite (split_without_sep _ _ Hv). apply item_penultimate_app.
Qed.

Lemma commit_qualification_changes_version_segment_witness :
  same_but_penultimate
    (PyStr.split slash "aws/service/bottlerocket/aws-k8s/x-1.24/x86_64/1.24.3-abcdef01/image_id")
    (PyStr.split slash "aws/service/bottlerocket/aws-k8s/x-1.24/x86_64/1.24.3/image_id").
Proof.
  refine (proj2 (proj1 (proj2
    (commit_qualification_changes_version_segment
       "bottlerocket-aws-k8s/x-1.24-x86_64-v1.24.3-abcdef0123" _ _ _ _))) _).
  - reflexivity.
  - reflexivity.
  - right. reflexivity.
Defined.
End CommitQualification.

(** ** The reconciliation *)

Section ReconcileFacts.
Import Reconcile.
Context {V : Type} `{EqDecision V}.
Variable set_iter : gset string → list string.
Hypothesis set_iter_elements : ∀ X, set_iter X ≡ₚ elements X.
Implicit Types (s3_data ssm_data : gmap string V) (c : comparison V).

Local Ltac step_cases s3_data ssm_data k :=
  unfold compare_key;
  destruct (s3_data !! k) as [?a|] eqn:?Hs3;
  destruct (ssm_data !! k) as [?b|] eqn:?Hssm;
  try case_decide; simplify_eq/=.

(** Every turn of the loop appends the key to one list, once. *)
Lemma occurrences_compare_key s3_data ssm_data c k' k :
  occurrences k (compare_key s3_data ssm_data c k')
  = occurrences k c + (if decide (k' = k) then 1 else 0).
Proof.
  unfold occurrences. step_cases s3_data ssm_data k';
    rewrite filter_app, length_app, filter_cons, filter_nil; simpl;
    repeat case_decide; simpl; (lia || congruence).
Qed.

Lemma occurrences_loop s3_data ssm_data c ks k :
  occurrences k (foldl (compare_key s3_data ssm_data) c ks)
  = occurrences k c + length (filter (λ x, x = k) ks).
Proof.
  revert c. induction ks as [|k' ks IH]; intros c; simpl; [lia|].
  rewrite IH, occurrences_compare_key, filter_cons.
  case_decide; simpl; lia.
Qed.

Lemma matching_loop s3_data ssm_data c ks k :
  k ∈ matching (foldl (compare_key s3_data ssm_data) c ks)
  ↔ k ∈ matching c
    ∨ (k ∈ ks ∧ ∃ v, s3_data !! k = Some v ∧ ssm_data !! k = Some v).
Proof.
  revert c. induction ks as [|k' ks IH]; intros c; simpl.
  { rewrite elem_of_nil. tauto. }
  rewrite IH, elem_of_cons.
  step_cases s3_data ssm_data k'; rewrite ?elem_of_app, ?list_elem_of_singleton;
    naive_solver.
Qed.

Lemma mismatched_loop s3_data ssm_data c ks m :
  m ∈ mismatched (foldl (compare_key s3_data ssm_data) c ks)
  ↔ m ∈ mismatched c
    ∨ (key m ∈ ks ∧ s3_data !! key m = Some (s3_value m)
       ∧ ssm_data !! key m = Some (ssm_value m) ∧ s3_value m ≠ ssm_value m).
Proof.
  revert c. induction ks as [|k' ks IH]; intros c; simpl.
  { rewrite elem_of_nil. tauto. }
  rewrite IH, elem_of_cons. destruct m as [k a b]; simpl.
  step_cases s3_data ssm_data k'; rewrite ?elem_of_app, ?list_elem_of_singleton;
    naive_solver.
Qed.

Lemma only_in_s3_loop s3_data ssm_data c ks k :
  k ∈ only_in_s3 (foldl (compare_key s3_data ssm_data) c ks)
  ↔ k ∈ only_in_s3 c
    ∨ (k ∈ ks ∧ is_Some (s3_data !! k) ∧ ssm_data !! k = None).
Proof.
  revert c. induction ks as [|k' ks IH]; intros c; simpl.
  { rewrite elem_of_nil. tauto. }
  rewrite IH, elem_of_cons. unfold is_Some.
  step_cases s3_data ssm_data k'; rewrite ?elem_of_app, ?list_elem_of_singleton;
    naive_solver.
Qed.

(** The [else] branch takes every key that is not in [s3_data]. *)
Lemma only_in_ssm_loop s3_data ssm_data c ks k :
  k ∈ only_in_ssm (foldl (compare_key s3_data ssm_data) c ks)
  ↔ k ∈ only_in_ssm c ∨ (k ∈ ks ∧ s3_data !! k = None).
Proof.
  revert c. induction ks as [|k' ks IH]; intros c; simpl.
  { rewrite elem_of_nil. tauto. }
  rewrite IH, elem_of_cons.
  step_cases s3_data ssm_data k'; rewrite ?elem_of_app, ?list_elem_of_singleton;
    naive_solver.
Qed.

Lemma set_iter_spec X k : k ∈ set_iter X ↔ k ∈ X.
Proof. by rewrite set_iter_elements, elem_of_elements. Qed.

Lemma set_iter_NoDup X : NoDup (set_iter X).
Proof. rewrite set_iter_elements. apply NoDup_elements. Qed.

Lemma count_absent (ks : list string) k :
  k ∉ ks → length (filter (λ x, x = k) ks) = 0.
Proof.
  induction ks as [|k' ks IH]; [done|].
  rewrite not_elem_of_cons, filter_cons. intros [Hne Hnotin].
  case_decide; [congruence|by apply IH].
Qed.

Lemma count_in_NoDup (ks : list string) k :
  NoDup ks → k ∈ ks → length (filter (λ x, x = k) ks) = 1.
Proof.
  induction 1 as [|k' ks Hnotin Hnd IH]; [by intros ?%elem_of_nil|].
  rewrite filter_cons, elem_of_cons. intros Hk. case_decide as Heq.
  - subst k'. simpl. by rewrite count_absent.
  - destruct Hk as [->|Hk]; [done|by apply IH].
Qed.

(** C4: every key that one of the two mappings holds occurs exactly once
    in the four lists together: in [matching] iff both mappings hold it with equal values, in
    [mismatched], recorded with both values, iff both hold it with unequal
    values, in [only_in_s3] iff only the left one holds it, in
    [only_in_ssm] iff only the right one does. *)
Theorem compare_partitions_keys s3_data ssm_data k :
  is_Some (s3_data !! k) ∨ is_Some (ssm_data !! k) →
  occurrences k (compare_region_results set_iter s3_data ssm_data) = 1
  ∧ (k ∈ matching (compare_region_results set_iter s3_data ssm_data)
     ↔ ∃ v, s3_data !! k = Some v ∧ ssm_data !! k = Some v)
  ∧ (∀ a b,
       Mismatch k a b
         ∈ mismatched (compare_region_results set_iter s3_data ssm_data)
       ↔ s3_data !! k = Some a ∧ ssm_data !! k = Some b ∧ a ≠ b)
  ∧ (k ∈ only_in_s3 (compare_region_results set_iter s3_data ssm_data)
     ↔ is_Some (s3_data !! k) ∧ ssm_data !! k = None)
  ∧ (k ∈ only_in_ssm (compare_region_results set_iter s3_data ssm_data)
     ↔ s3_data !! k = None ∧ is_Some (ssm_data !! k)).
Proof.
  intros Hdom. unfold compare_region_results.
  assert (k ∈ set_iter (all_keys s3_data ssm_data)) as Hin.
  { apply set_iter_spec. unfold all_keys.
    by rewrite elem_of_union, !elem_of_dom. }
  split; [|split; [|split; [|split]]].
  - rewrite occurrences_loop. unfold occurrences; simpl.
    by rewrite count_in_NoDup by (done || apply set_iter_NoDup).
  - rewrite matching_loop; simpl. rewrite elem_of_nil. naive_solver.
  - intros a b. rewrite mismatched_loop; simpl. rewrite elem_of_nil.
    naive_solver.
  - rewrite only_in_s3_loop; simpl. rewrite elem_of_nil. naive_solver.
  - rewrite only_in_ssm_loop; simpl. rewrite elem_of_nil.
    split.
    + intros [[]|[_ Hnone]]. split; [done|].
      destruct Hdom as [Hs|Hs]; [|done]. rewrite Hnone in Hs. by destruct Hs.
    + naive_solver.
Qed.

(** The loop of a mapping against itself only ever fills [matching]. *)
Lemma compare_self_loop (m : gmap string V) c ks :
  Forall (λ k, is_Some (m !! k)) ks →
  foldl (compare_key m m) c ks
  = Comparison (matching c ++ ks) (mismatched c)
               (only_in_s3 c) (only_in_ssm c).
Proof.
  intros Hks. revert c.
  induction Hks as [|k ks [v Hv] _ IH]; intros c; simpl.
  - rewrite app_nil_r. by destruct c.
  - rewrite IH. unfold compare_key. rewrite Hv.
    case_decide; [|done]. simpl. by rewrite <- app_assoc.
Qed.

(** C5: a mapping compared with itself has nothing mismatched, nothing on
    one side only, and a [matching] list that holds the keys of the
    mapping, each once. *)
Theorem compare_with_itself (m : gmap string V) :
  mismatched (compare_region_results set_iter m m) = []
  ∧ only_in_s3 (compare_region_results set_iter m m) = []
  ∧ only_in_ssm (compare_region_results set_iter m m) = []
  ∧ matching (compare_region_results set_iter m m) ≡ₚ elements (dom m).
Proof.
  unfold compare_region_results. rewrite compare_self_loop.
  - simpl. repeat split; try done.
    unfold all_keys. by rewrite union_idemp_L.
  - apply Forall_forall. intros k Hk%set_iter_spec.
    unfold all_keys in Hk. rewrite union_idemp_L in Hk.
    by apply elem_of_dom.
Qed.
End ReconcileFacts.

Section ReconcileWitnesses.
Import Reconcile.

Lemma compare_partitions_keys_witness :
  occurrences "k3"
    (compare_region_results elements
       (<["k1" := "ami-1"]> (<["k2" := "ami-2"]> (∅ : gmap string string)))
       (<["k1" := "ami-9"]> (<["k3" := "ami-3"]> (∅ : gmap string string))))
  = 1.
Proof.
  refine (proj1 (compare_partitions_keys elements _ _ _ "k3" _)).
  - intros X. reflexivity.
  - right. exists "ami-3". vm_compute. reflexivity.
Defined.

Lemma compare_with_itself_witness :
  mismatched
    (compare_region_results elements
       (<["k1" := "ami-1"]> (∅ : gmap string string))
       (<["k1" := "ami-1"]> (∅ : gmap string string))) = [].
Proof.
  refine (proj1 (compare_with_itself elements _ _)).
  intros X. reflexivity.
Defined.
End ReconcileWitnesses.

(** ** The version gate *)

Section FrameFacts.
Import VersionGate Frame.

Lemma item_evolves_refl h kv : item_evolves h h kv kv.
Proof. split; [done|by left]. Qed.

Lemma object_evolves_refl h h' o :
  (∀ kv, item_evolves h h' kv kv) → object_evolves h h' o o.
Proof.
  intros Hrefl. destruct o as [kvs|xs]; simpl; [|done].
  by apply Forall_Forall2_diag, Forall_forall.
Qed.

Lemma heap_evolves_refl h : heap_evolves h h.
Proof.
  split; [done|]. intros l o Hl. exists o. split; [done|].
  apply object_evolves_refl. intros kv. apply item_evolves_refl.
Qed.

(** A list of the old store is the same list in the new store. *)
Lemma heap_evolves_list h h' l xs :
  heap_evolves h h' → h !! l = Some (OList xs) → h' !! l = Some (OList xs).
Proof.
  intros [_ Hobj] Hl. destruct (Hobj _ _ Hl) as (o' & Hl' & Ho').
  destruct o' as [|xs']; simpl in Ho'; [done|]. by subst.
Qed.

Lemma heap_evolves_as_list h h' v xs :
  heap_evolves h h' → as_list h v = Some xs → as_list h' v = Some xs.
Proof.
  intros Hev. unfold as_list. destruct v as [| | | |l]; try done.
  destruct (h !! l) as [[kvs|ys]|] eqn:Hl; try done.
  intros [= ->]. by rewrite (heap_evolves_list _ _ _ _ Hev Hl).
Qed.

Lemma item_evolves_trans h h1 h2 a b c :
  heap_evolves h h1 → heap_evolves h1 h2 →
  item_evolves h h1 a b → item_evolves h1 h2 b c → item_evolves h h2 a c.
Proof.
  intros Hev1 Hev2 [Hk1 Hv1] [Hk2 Hv2]. split; [congruence|].
  destruct Hv1 as [Hv1|(xs & ys & l1 & Hkey & Hxs & Hb & Hl1 & Hys & Hsub)].
  - destruct Hv2 as [Hv2|(xs & ys & l2 & Hkey & Hxs & Hc & Hl2 & Hys & Hsub)].
    + left. congruence.
    + right. exists xs, ys, l2. rewrite <- Hv1, <- Hk1.
      repeat split; try done. destruct Hev1 as [Hlen _]. lia.
  - pose proof (heap_evolves_as_list _ _ _ _ Hev2 Hxs) as Hxs2.
    pose proof (heap_evolves_list _ _ _ _ Hev2 Hys) as Hys2.
    destruct Hv2 as [Hv2|(ys' & zs & l2 & _ & Hys' & Hc & Hl2 & Hzs & Hsub')].
    + right. exists xs, ys, l1. rewrite Hv2. done.
    + right. exists xs, zs, l2.
      rewrite Hb in Hys'. simpl in Hys'. rewrite Hys2 in Hys'.
      injection Hys' as <-.
      repeat split; try done.
      * destruct Hev1 as [Hlen _]. lia.
      * by etrans.
Qed.

Lemma items_evolve_trans h h1 h2 kvs kvs1 kvs2 :
  heap_evolves h h1 → heap_evolves h1 h2 →
  Forall2 (item_evolves h h1) kvs kvs1 →
  Forall2 (item_evolves h1 h2) kvs1 kvs2 →
  Forall2 (item_evolves h h2) kvs kvs2.
Proof.
  intros Hev1 Hev2 H1. revert kvs2.
  induction H1 as [|a b kvs kvs1 Hab _ IH]; intros kvs2 H2; inv H2.
  - constructor.
  - constructor; [by eapply item_evolves_trans|by apply IH].
Qed.

Lemma heap_evolves_trans h h1 h2 :
  heap_evolves h h1 → heap_evolves h1 h2 → heap_evolves h h2.
Proof.
  intros Hev1 Hev2. split.
  { destruct Hev1, Hev2. lia. }
  intros l o Hl.
  destruct (proj2 Hev1 _ _ Hl) as (o1 & Hl1 & Ho1).
  destruct (proj2 Hev2 _ _ Hl1) as (o2 & Hl2 & Ho2).
  exists o2. split; [done|].
  destruct o as [kvs|xs], o1 as [kvs1|xs1], o2 as [kvs2|xs2];
    simpl in *; try done; [|congruence].
  by eapply items_evolve_trans.
Qed.

(** *** Assignment to a key of a dict *)

Lemma dict_set_keys k v kvs :
  k ∈ kvs.*1 → (dict_set k v kvs).*1 = kvs.*1.
Proof.
  induction kvs as [|[k' v'] kvs IH]; simpl; [by intros ?%elem_of_nil|].
  intros Hk. case_decide; simpl; [by subst|].
  f_equal. apply IH. by apply elem_of_cons in Hk as [->|].
Qed.

(** With distinct keys, assigning to the key of the [i]-th item changes
    that item and no other. *)
Lemma dict_set_lookup k v v' kvs i :
  NoDup kvs.*1 → kvs !! i = Some (k, v) →
  dict_set k v' kvs = <[i := (k, v')]> kvs.
Proof.
  revert i. induction kvs as [|[k0 v0] kvs IH]; intros i Hnd Hi; [done|].
  simpl in Hnd. apply NoDup_cons in Hnd as [Hnotin Hnd]. simpl.
  destruct i as [|i]; simpl in *.
  - injection Hi as -> ->. by rewrite decide_True.
  - rewrite decide_False.
    + f_equal. by apply IH.
    + intros ->. apply Hnotin.
      apply list_elem_of_fmap. exists (k, v). split; [done|].
      by eapply list_elem_of_lookup_2.
Qed.

Lemma heap_ok_alloc_list h xs : heap_ok h → heap_ok (h ++ [OList xs]).
Proof. intros Hok. apply Forall_app. split; [done|]. by constructor. Qed.

(** The assignment [data[key] = new] of lines 29 and 31, where [new] is a
    list just created from the list found under [key]. *)
Lemma store_new_list_evolves h l kvs i k value items new :
  heap_ok h →
  h !! l = Some (ODict kvs) → kvs !! i = Some (k, value) →
  as_list h value = Some items →
  assigned_key k → new `sublist_of` items →
  heap_evolves h (store_item (h ++ [OList new]) l k (VRef (length h)))
  ∧ heap_ok (store_item (h ++ [OList new]) l k (VRef (length h))).
Proof.
  intros Hok Hl Hi Hitems Hkey Hsub.
  pose proof (lookup_lt_Some _ _ _ Hl) as Hlt.
  assert (NoDup kvs.*1) as Hnd
    by exact (Forall_lookup_1 _ _ _ _ Hok Hl).
  unfold store_item. rewrite lookup_app_l, Hl by done.
  rewrite (dict_set_lookup _ _ _ _ _ Hnd Hi).
  set (h' := <[l:=_]> (h ++ [OList new])).
  assert (∀ l0, l0 ≠ l → l0 < length h → h' !! l0 = h !! l0) as Hother.
  { intros l0 Hne Hlt0. unfold h'.
    by rewrite list_lookup_insert_ne, lookup_app_l. }
  assert (h' !! length h = Some (OList new)) as Hnew.
  { unfold h'. rewrite list_lookup_insert_ne by lia.
    by apply list_lookup_middle. }
  assert (item_evolves h h' (k, value) (k, VRef (length h))) as Hitem.
  { split; [done|]. right. exists items, new, (length h).
    repeat split; try done. simpl.
    unfold as_list in *. destruct value as [| | | |lv]; try done.
    destruct (h !! lv) as [[?|?]|] eqn:Hlv; try done.
    rewrite Hother; [by rewrite Hlv|congruence|by eapply lookup_lt_Some]. }
  split.
  - split.
    { unfold h'. rewrite length_insert, length_app. simpl. lia. }
    intros l0 o Hl0. destruct (decide (l0 = l)) as [->|Hne].
    + rewrite Hl in Hl0. injection Hl0 as <-.
      eexists. split.
      { unfold h'. apply list_lookup_insert_eq.
        rewrite length_app. simpl. lia. }
      simpl. apply Forall2_same_length_lookup_2.
      { by rewrite length_insert. }
      intros j a b Ha Hb. destruct (decide (j = i)) as [->|Hji].
      * rewrite list_lookup_insert_eq in Hb by by eapply lookup_lt_Some.
        by simplify_eq.
      * rewrite list_lookup_insert_ne in Hb by done.
        simplify_eq. split; [done|by left].
    + exists o. split.
      { rewrite Hother; [done..|]. by eapply lookup_lt_Some. }
      apply object_evolves_refl. intros kv. split; [done|by left].
  - unfold h'. apply Forall_insert; [by apply heap_ok_alloc_list|].
    rewrite <- (dict_set_lookup _ _ _ _ _ Hnd Hi).
    rewrite dict_set_keys; [done|].
    apply list_elem_of_fmap. exists (k, value). split; [done|].
    by eapply list_elem_of_lookup_2.
Qed.
End FrameFacts.

Section VersionGateFacts.
Import VersionGate Frame.
Context `{Packaging}.

Lemma filter_list_sublist min_ver items :
  filter_list min_ver items `sublist_of` items.
Proof. apply sublist_filter. Qed.

Lemma filter_dict_sublist h min_ver items kept :
  filter_dict h min_ver items = Ok kept → kept `sublist_of` items.
Proof.
  revert kept. induction items as [|item items IH]; intros kept; simpl.
  { by intros [= <-]. }
  destruct (subscript_key h item) as [k|]; simpl; [|done].
  destruct (parse_version_of k) as [parsed|]; simpl; [|done].
  destruct (filter_dict h min_ver items) as [kept'|]; simpl; [|done].
  specialize (IH _ eq_refl). intros [= <-].
  destruct parsed as [parsed_ver|]; [|by apply sublist_cons].
  destruct (version_ge parsed_ver min_ver);
    [by apply sublist_skip|by apply sublist_cons].
Qed.

(** A structured entry is never a string, so the comprehension of
    [filter_list] drops it whatever its version. *)
Lemma filter_list_drops_non_strings min_ver items :
  Forall (λ item, ∀ s, item ≠ VStr s) items →
  filter_list min_ver items = [].
Proof.
  induction 1 as [|item items Hitem _ IH]; [done|].
  unfold filter_list in *. rewrite filter_cons, IH.
  destruct item; simpl; try done. by destruct (Hitem s).
Qed.

Lemma keep_item_true min_ver item :
  keep_item min_ver item = true
  ↔ ∃ s parsed_ver,
      item = VStr s ∧ parse_version s = Some parsed_ver
      ∧ version_ge parsed_ver min_ver = true.
Proof.
  unfold keep_item. split.
  - destruct item as [| | |s|]; try done.
    destruct (parse_version s) as [parsed_ver|] eqn:Hparsed; [|done].
    intros Hge. by exists s, parsed_ver.
  - intros (s & parsed_ver & -> & Hparsed & Hge). by rewrite Hparsed.
Qed.

(** What [filter_list] keeps. *)
Lemma elem_of_filter_list min_ver items item :
  item ∈ filter_list min_ver items
  ↔ item ∈ items
    ∧ ∃ s parsed_ver,
        item = VStr s ∧ parse_version s = Some parsed_ver
        ∧ version_ge parsed_ver min_ver = true.
Proof.
  unfold filter_list. rewrite list_elem_of_filter, keep_item_true. tauto.
Qed.

Lemma preserving_ok : preserving Ok.
Proof. intros h h' Hok [= <-]. split; [apply heap_evolves_refl|done]. Qed.

Lemma for_each_preserving {A} (body : heap → A → result heap) xs :
  (∀ x, preserving (λ h, body h x)) → preserving (for_each body xs).
Proof.
  intros Hbody. induction xs as [|x xs IH]; simpl; [apply preserving_ok|].
  intros h h' Hok. destruct (body h x) as [h1|] eqn:Hx; simpl; [|done].
  intros Hrest. destruct (Hbody x h h1 Hok Hx) as [Hev1 Hok1].
  destruct (IH h1 h' Hok1 Hrest) as [Hev2 Hok2].
  split; [by eapply heap_evolves_trans|done].
Qed.

Lemma dict_step_preserving rec min_ver l i :
  (∀ v, preserving (λ h, rec h v)) →
  preserving (λ h, dict_step rec min_ver l h i).
Proof.
  intros Hrec h h' Hok. unfold dict_step.
  destruct (h !! l) as [[kvs|xs]|] eqn:Hl; try apply preserving_ok; try done.
  destruct (kvs !! i) as [[k value]|] eqn:Hi; [|by apply preserving_ok].
  destruct (as_list h value) as [items|] eqn:Hitems.
  - case_bool_decide as Hk.
    + intros [= <-].
      eapply store_new_list_evolves; eauto using filter_list_sublist.
      by left.
    + case_decide as Hw; [|by apply preserving_ok].
      destruct (filter_dict h min_ver items) as [kept|] eqn:Hkept;
        simpl; [|done].
      intros [= <-].
      eapply store_new_list_evolves; eauto using filter_dict_sublist.
      by right.
  - destruct (as_dict h value); [by apply Hrec|by apply preserving_ok].
Qed.

Lemma list_step_preserving rec item :
  (∀ v, preserving (λ h, rec h v)) → preserving (λ h, list_step rec h item).
Proof.
  intros Hrec h h' Hok. unfold list_step.
  destruct (as_dict h item); [by apply Hrec|by apply preserving_ok].
Qed.

Lemma filter_versions_body_preserving rec data min_version :
  (∀ v, preserving (λ h, rec h v)) →
  preserving (λ h, filter_versions_body rec h data min_version).
Proof.
  intros Hrec h h' Hok. unfold filter_versions_body.
  destruct (version_parse min_version) as [min_ver|]; [|done].
  destruct data as [| | | |l]; try by apply preserving_ok.
  destruct (h !! l) as [[kvs|xs]|]; [| |by apply preserving_ok].
  - apply for_each_preserving; [|done].
    intros i. by apply dict_step_preserving.
  - apply for_each_preserving; [|done].
    intros item. by apply list_step_preserving.
Qed.

Lemma filter_versions_preserving depth data min_version :
  preserving (λ h, filter_versions depth h data min_version).
Proof.
  revert data. induction depth as [|d IH]; intros data; simpl; [done|].
  apply filter_versions_body_preserving. intros v. apply IH.
Qed.
End VersionGateFacts.

Section VersionGateResults.
Import VersionGate Frame.

(** The filter on a dict with one list under one of the four key names:
    the call returns normally and leaves the filtered list, newly created,
    under that key. *)
Lemma filter_versions_single_list `{Packaging} d (h : heap) l li k items
    min_version min_ver :
  version_parse min_version = Some min_ver →
  h !! l = Some (ODict [(k, VRef li)]) →
  h !! li = Some (OList items) →
  k ∈ filtered_keys →
  filter_versions (S d) h (VRef l) min_version
  = Ok (<[l := ODict [(k, VRef (length h))]]>
          (h ++ [OList (filter_list min_ver items)])).
Proof.
  intros Hmin Hl Hli Hk. simpl. unfold filter_versions_body.
  rewrite Hmin, Hl. simpl. unfold dict_step. rewrite Hl. simpl.
  rewrite Hli. rewrite bool_decide_eq_true_2 by done. simpl.
  unfold store_item.
  rewrite lookup_app_l, Hl by by eapply lookup_lt_Some.
  simpl. by rewrite decide_True.
Qed.

(** One turn of the loop at an item that holds a list under one of the
    four key names. *)
Lemma dict_step_assigns `{Packaging} rec min_ver l (h : heap) i kvs k lv items :
  h !! l = Some (ODict kvs) → NoDup kvs.*1 →
  kvs !! i = Some (k, VRef lv) →
  h !! lv = Some (OList items) →
  k ∈ filtered_keys →
  dict_step rec min_ver l h i
  = Ok (<[l := ODict (<[i := (k, VRef (length h))]> kvs)]>
          (h ++ [OList (filter_list min_ver items)])).
Proof.
  intros Hl Hnd Hi Hlv Hk. unfold dict_step. rewrite Hl, Hi. simpl.
  rewrite Hlv. rewrite bool_decide_eq_true_2 by done. simpl.
  unfold store_item.
  rewrite lookup_app_l, Hl by by eapply lookup_lt_Some.
  by rewrite (dict_set_lookup _ _ _ _ _ Hnd Hi).
Qed.

(** The same turn later in the loop, when the dict at [l] has already been
    assigned to and the lists [news] have been created. *)
Lemma dict_step_assigns_next `{Packaging} rec min_ver l (h news : heap) o i
    kvs k lv items :
  h !! l = Some o → lv ≠ l →
  NoDup kvs.*1 →
  kvs !! i = Some (k, VRef lv) →
  h !! lv = Some (OList items) →
  k ∈ filtered_keys →
  dict_step rec min_ver l (<[l := ODict kvs]> (h ++ news)) i
  = Ok (<[l := ODict (<[i := (k, VRef (length h + length news))]> kvs)]>
          (h ++ (news ++ [OList (filter_list min_ver items)]))).
Proof.
  intros Hl Hne Hnd Hi Hlv Hk.
  pose proof (lookup_lt_Some _ _ _ Hl) as Hlt.
  pose proof (lookup_lt_Some _ _ _ Hlv) as Hlvlt.
  erewrite dict_step_assigns; [|..|exact Hk].
  - rewrite length_insert, length_app.
    rewrite <- insert_app_l by (rewrite length_app; lia).
    by rewrite list_insert_insert_eq, <- app_assoc.
  - apply list_lookup_insert_eq. rewrite length_app. lia.
  - done.
  - done.
  - rewrite list_lookup_insert_ne by done. by rewrite lookup_app_l.
Qed.

(** The filter on a region's comparison result, the dict with the four
    lists: the call returns, the dict is the same object and now refers to
    four newly created lists. *)
Lemma filter_versions_comparison_dict `{Packaging} d (h : heap) l l1 l2 l3 l4
    xs1 xs2 xs3 xs4 min_version min_ver :
  version_parse min_version = Some min_ver →
  h !! l = Some (ODict [("matching", VRef l1); ("mismatched", VRef l2);
                        ("only_in_s3", VRef l3); ("only_in_ssm", VRef l4)]) →
  h !! l1 = Some (OList xs1) → h !! l2 = Some (OList xs2) →
  h !! l3 = Some (OList xs3) → h !! l4 = Some (OList xs4) →
  filter_versions (S d) h (VRef l) min_version
  = Ok (<[l := ODict [("matching", VRef (length h));
                      ("mismatched", VRef (length h + 1));
                      ("only_in_s3", VRef (length h + 2));
                      ("only_in_ssm", VRef (length h + 3))]]>
          (h ++ [OList (filter_list min_ver xs1);
                 OList (filter_list min_ver xs2);
                 OList (filter_list min_ver xs3);
                 OList (filter_list min_ver xs4)])).
Proof.
  intros Hmin Hl H1 H2 H3 H4.
  assert (∀ li xs, h !! li = Some (OList xs) → li ≠ l) as Hne
    by (intros li xs Hli ->; congruence).
  assert (∀ v1 v2 v3 v4 : val,
            NoDup [("matching", v1); ("mismatched", v2);
                   ("only_in_s3", v3); ("only_in_ssm", v4)].*1) as Hnd
    by (intros; simpl; repeat (constructor; [set_solver|]); constructor).
  assert ("matching" ∈ filtered_keys ∧ "mismatched" ∈ filtered_keys
          ∧ "only_in_s3" ∈ filtered_keys ∧ "only_in_ssm" ∈ filtered_keys)
    as (Hk1 & Hk2 & Hk3 & Hk4) by (unfold filtered_keys; set_solver).
  simpl. unfold filter_versions_body. rewrite Hmin, Hl. simpl.
  rewrite (dict_step_assigns _ min_ver l h 0 _ _ _ _
             Hl (Hnd _ _ _ _) eq_refl H1 Hk1). simpl.
  rewrite (dict_step_assigns_next _ min_ver l h _ _ 1 _ _ _ _
             Hl (Hne _ _ H2) (Hnd _ _ _ _) eq_refl H2 Hk2). simpl.
  rewrite (dict_step_assigns_next _ min_ver l h _ _ 2 _ _ _ _
             Hl (Hne _ _ H3) (Hnd _ _ _ _) eq_refl H3 Hk3). simpl.
  rewrite (dict_step_assigns_next _ min_ver l h _ _ 3 _ _ _ _
             Hl (Hne _ _ H4) (Hnd _ _ _ _) eq_refl H4 Hk4). simpl.
  done.
Qed.

(** C1: the list under [mismatched] goes through [filter_list], which keeps
    strings only.  On a comparison result whose mismatched entries are dicts
    with a [key] field, the call returns and leaves an empty list under
    [mismatched], whatever the versions of the entries are. *)
Theorem mismatched_entries_are_all_dropped `{Packaging} d (h : heap)
    l l1 l2 l3 l4 xs1 entries xs3 xs4 min_version min_ver :
  version_parse min_version = Some min_ver →
  h !! l = Some (ODict [("matching", VRef l1); ("mismatched", VRef l2);
                        ("only_in_s3", VRef l3); ("only_in_ssm", VRef l4)]) →
  h !! l1 = Some (OList xs1) → h !! l2 = Some (OList entries) →
  h !! l3 = Some (OList xs3) → h !! l4 = Some (OList xs4) →
  Forall (λ entry, ∃ kvs path, as_dict h entry = Some kvs
                               ∧ dict_get "key" kvs = Some (VStr path))
         entries →
  ∃ h' : heap,
    filter_versions (S d) h (VRef l) min_version = Ok h'
    ∧ h' !! l = Some (ODict [("matching", VRef (length h));
                             ("mismatched", VRef (length h + 1));
                             ("only_in_s3", VRef (length h + 2));
                             ("only_in_ssm", VRef (length h + 3))])
    ∧ h' !! (length h + 1) = Some (OList []).
Proof.
  intros Hmin Hl H1 H2 H3 H4 Hentries.
  pose proof (lookup_lt_Some _ _ _ Hl) as Hlt.
  eexists. split; [by eapply filter_versions_comparison_dict|].
  split.
  - apply list_lookup_insert_eq. rewrite length_app. lia.
  - rewrite list_lookup_insert_ne by lia.
    rewrite lookup_app_r by lia.
    replace (length h + 1 - length h) with 1 by lia. simpl.
    rewrite filter_list_drops_non_strings; [done|].
    eapply Forall_impl; [exact Hentries|].
    by intros entry (kvs & path & Hkvs & _) s ->.
Qed.

#[local] Existing Instance Release.packaging.

Lemma mismatched_entries_are_all_dropped_witness :
  ∃ h' : heap,
    filter_versions 1 (load Samples.comparison_doc []).1 (VRef 5) "1.14.3"
    = Ok h'
    ∧ h' !! 5 = Some (ODict [("matching", VRef 6); ("mismatched", VRef 7);
                             ("only_in_s3", VRef 8); ("only_in_ssm", VRef 9)])
    ∧ h' !! 7 = Some (OList []).
Proof.
  apply (@mismatched_entries_are_all_dropped Release.packaging 0
           (load Samples.comparison_doc []).1 5 0 2 3 4
           [VStr Samples.path_1_14_2; VStr Samples.path_1_14_10;
            VStr Samples.path_latest]
           [VRef 1] [] [] "1.14.3" [1; 14; 3]%N); try reflexivity.
  constructor; [|constructor]. eexists _, _. split; reflexivity.
Defined.

(** The same entry through [main]: under [mismatched] it is dropped although
    its version 1.15.0 passes the filter, under [wrong_owner] it is kept. *)
Example main_on_mismatched_entry :
  main Samples.mismatched_doc = Ok (Some (JObj [("mismatched", JArr [])]))
  ∧ main Samples.wrong_owner_doc = Ok (Some Samples.wrong_owner_doc)
  ∧ parse_version Samples.path_1_15_0 = Some [1; 15; 0]%N
  ∧ version_ge [1; 15; 0]%N [1; 14; 3]%N = true.
Proof. by vm_compute. Qed.

(** C2, as stated, fails: after the call the object that was passed in no
    longer holds what it held. *)
Lemma filter_versions_mutates_its_input :
  ∃ h data h',
    load Samples.matching_doc [] = (h, data)
    ∧ filter_versions recursion_limit h data "1.14.3" = Ok h'
    ∧ dump recursion_limit h data = Some Samples.matching_doc
    ∧ dump recursion_limit h' data
      = Some (JObj [("matching", JArr [JStr Samples.path_1_14_10])])
    ∧ h' !! 1 ≠ h !! 1.
Proof.
  eexists _, _, _. split; [by vm_compute|]. split; [by vm_compute|].
  split; [by vm_compute|]. split; [by vm_compute|].
  vm_compute. discriminate.
Qed.

(** C2 (amended): the filter works in place.  When a call returns, every
    object of the store it was given is still there: no list has been
    changed, and every dict has its keys in their order, each value being
    either the one it was or, under one of the key names the filter assigns
    to, a newly created list whose elements are a sub-list of the list that
    was there. *)
Theorem filter_versions_updates_in_place `{Packaging} depth (h : heap) data
    min_version (h' : heap) :
  heap_ok h →
  filter_versions depth h data min_version = Ok h' →
  heap_evolves h h' ∧ heap_ok h'.
Proof. intros Hok Hcall. by eapply filter_versions_preserving. Qed.

Lemma filter_versions_updates_in_place_witness :
  heap_evolves
    [OList [VStr Samples.path_1_14_2]; ODict [("matching", VRef 0)]]
    [OList [VStr Samples.path_1_14_2]; ODict [("matching", VRef 2)]; OList []].
Proof.
  refine (proj1 (filter_versions_updates_in_place 1
    [OList [VStr Samples.path_1_14_2]; ODict [("matching", VRef 0)]]
    (VRef 1) "1.14.3" _ _ _)).
  - constructor; [done|]. constructor; [|constructor].
    simpl. apply NoDup_singleton.
  - reflexivity.
Defined.

(** C9: with the minimum version 1.14.3, an entry whose version is 1.14.2
    is left out and one whose version is 1.14.10 stays (release numbers are
    compared number by number, so 1.14.3 < 1.14.10); an entry whose version
    cannot be parsed is left out, and the call returns normally. *)
Theorem version_gate_orders_release_numbers (items : list val)
    (p2 p10 pbad : string) :
  version_part p2 = Some "1.14.2" →
  version_part p10 = Some "1.14.10" →
  parse_version pbad = None →
  ∃ min_ver,
    version_parse "1.14.3" = Some min_ver
    ∧ Release.compare min_ver [1; 14; 10]%N = Lt
    ∧ (VStr p2 ∉ filter_list min_ver items)
    ∧ (VStr p10 ∈ filter_list min_ver items ↔ VStr p10 ∈ items)
    ∧ (VStr pbad ∉ filter_list min_ver items)
    ∧ ∀ d (h : heap) l li,
        h !! l = Some (ODict [("matching", VRef li)]) →
        h !! li = Some (OList items) →
        filter_versions (S d) h (VRef l) "1.14.3"
        = Ok (<[l := ODict [("matching", VRef (length h))]]>
                (h ++ [OList (filter_list min_ver items)])).
Proof.
  intros H2 H10 Hbad. exists [1; 14; 3]%N.
  split; [done|]. split; [done|].
  assert (parse_version p2 = Some [1; 14; 2]%N) as Hp2
    by (unfold parse_version; by rewrite H2).
  assert (parse_version p10 = Some [1; 14; 10]%N) as Hp10
    by (unfold parse_version; by rewrite H10).
  split; [|split; [|split]].
  - rewrite elem_of_filter_list. intros (_ & s & v & [= <-] & Hv & Hge).
    rewrite Hp2 in Hv. injection Hv as <-. by vm_compute in Hge.
  - rewrite elem_of_filter_list. split; [tauto|].
    intros Hin. split; [done|]. by exists p10, [1; 14; 10]%N.
  - rewrite elem_of_filter_list. intros (_ & s & v & [= <-] & Hv & _).
    by rewrite Hbad in Hv.
  - intros d h l li Hl Hli.
    apply (filter_versions_single_list d h l li "matching" items); try done.
    unfold filtered_keys. set_solver.
Qed.

Lemma version_gate_orders_release_numbers_witness :
  ∃ min_ver,
    version_parse "1.14.3" = Some min_ver
    ∧ Release.compare min_ver [1; 14; 10]%N = Lt
    ∧ (VStr Samples.path_1_14_2 ∉ filter_list min_ver [VStr Samples.path_1_14_10])
    ∧ (VStr Samples.path_1_14_10 ∈ filter_list min_ver [VStr Samples.path_1_14_10]
       ↔ VStr Samples.path_1_14_10 ∈ [VStr Samples.path_1_14_10])
    ∧ (VStr Samples.path_latest ∉ filter_list min_ver [VStr Samples.path_1_14_10])
    ∧ ∀ d (h : heap) l li,
        h !! l = Some (ODict [("matching", VRef li)]) →
        h !! li = Some (OList [VStr Samples.path_1_14_10]) →
        filter_versions (S d) h (VRef l) "1.14.3"
        = Ok (<[l := ODict [("matching", VRef (length h))]]>
                (h ++ [OList (filter_list min_ver [VStr Samples.path_1_14_10])])).
Proof.
  apply (version_gate_orders_release_numbers [VStr Samples.path_1_14_10]
           Samples.path_1_14_2 Samples.path_1_14_10 Samples.path_latest);
    reflexivity.
Defined.

(** The same on a document, through [main]. *)
Example main_on_matching_doc :
  main Samples.matching_doc
  = Ok (Some (JObj [("matching", JArr [JStr Samples.path_1_14_10])])).
Proof. by vm_compute. Qed.
End VersionGateResults.

(** ** Documents in the store *)

Section LoadFacts.
Import VersionGate Frame.

(** Induction on documents, with the members of arrays and objects. *)
Lemma json_nested_ind (P : json → Prop) :
  P JNull → (∀ b, P (JBool b)) → (∀ n, P (JNum n)) → (∀ s, P (JStr s)) →
  (∀ elems, Forall P elems → P (JArr elems)) →
  (∀ members, Forall (λ m, P m.2) members → P (JObj members)) →
  ∀ j, P j.
Proof.
  intros Hnull Hbool Hnum Hstr Harr Hobj. fix IH 1.
  intros [|b|n|s|elems|members].
  - exact Hnull.
  - apply Hbool.
  - apply Hnum.
  - apply Hstr.
  - apply Harr. induction elems as [|j elems IHelems]; constructor.
    + apply IH.
    + exact IHelems.
  - apply Hobj. induction members as [|[k j] members IHm]; constructor.
    + apply IH.
    + exact IHm.
Qed.

Lemma dict_set_NoDup k v kvs : NoDup kvs.*1 → NoDup (dict_set k v kvs).*1.
Proof.
  intros Hnd. destruct (decide (k ∈ kvs.*1)) as [Hin|Hnotin].
  - by rewrite dict_set_keys.
  - replace (dict_set k v kvs) with (kvs ++ [(k, v)]).
    + rewrite fmap_app. simpl. apply NoDup_app. split; [done|].
      split; [|apply NoDup_singleton].
      intros x Hx ->%list_elem_of_singleton. done.
    + clear Hnd. induction kvs as [|[k' v'] kvs IH]; simpl; [done|].
      simpl in Hnotin. apply not_elem_of_cons in Hnotin as [Hne Hnotin].
      rewrite decide_False by done. f_equal. by apply IH.
Qed.

(** [json.load] builds dicts with distinct keys. *)
Lemma load_heap_ok j : ∀ h : heap, heap_ok h → heap_ok (load j h).1.
Proof.
  induction j as [|b|n|s|elems IH|members IH] using json_nested_ind;
    intros h Hok; simpl; try done.
  - assert (heap_ok (load_elems load elems h).1) as Hgo.
    { clear -IH Hok. revert h Hok.
      induction IH as [|j elems Hj _ IHelems]; intros h Hok; simpl; [done|].
      specialize (Hj h Hok). destruct (load j h) as [h1 v]. simpl in Hj.
      specialize (IHelems h1 Hj). by destruct (load_elems load elems h1). }
    destruct (load_elems load elems h) as [h1 vs]. simpl in *.
    by apply heap_ok_alloc_list.
  - assert (∀ acc, NoDup acc.*1 →
              heap_ok (load_members load members h acc).1
              ∧ NoDup ((load_members load members h acc).2).*1) as Hgo.
    { clear -IH Hok. revert h Hok.
      induction IH as [|[k j] members Hj _ IHm]; intros h Hok acc Hacc; simpl;
        [done|].
      simpl in Hj. specialize (Hj h Hok).
      destruct (load j h) as [h1 v]. simpl in Hj.
      apply IHm; [done|]. by apply dict_set_NoDup. }
    destruct (Hgo [] (NoDup_nil_2)) as [Hh Hk].
    destruct (load_members load members h []) as [h1 kvs]. simpl in *.
    apply Forall_app. split; [done|]. by constructor.
Qed.

(** Whatever document [main] reads, when the filter returns the store has
    evolved from the loaded one as [heap_evolves] says. *)
Lemma main_filters_in_place `{Packaging} input (h' : heap) :
  filter_versions recursion_limit (load input []).1 (load input []).2 "1.14.3"
    = Ok h' →
  heap_evolves (load input []).1 h'.
Proof.
  intros Hcall.
  destruct (filter_versions_preserving recursion_limit (load input []).2
              "1.14.3" (load input []).1 h') as [Hev _];
    [apply load_heap_ok; constructor|exact Hcall|exact Hev].
Qed.
End LoadFacts.

(** ** More on the translator *)

Section TranslatorMore.
Import PyStr PyList Translator.

Lemma index_lt {A} `{EqDecision A} (x : A) l : x ∈ l → index x l < length l.
Proof.
  induction l as [|y l IH]; simpl; [by intros ?%elem_of_nil|].
  intros Hx. case_decide; [lia|].
  apply elem_of_cons in Hx as [->|Hx]; [done|]. specialize (IH Hx). lia.
Qed.

Lemma length_ensure_aws parts :
  length parts ≤ length (ensure_aws parts).
Proof.
  unfold ensure_aws. case_decide; [done|]. rewrite length_insert_at. lia.
Qed.

Lemma elem_of_ensure_aws_inv x parts :
  x ∈ ensure_aws parts → x = "aws" ∨ x ∈ parts.
Proof.
  unfold ensure_aws, insert_at. case_decide; [by right|].
  rewrite <- (take_drop 2 parts) at 3.
  rewrite !elem_of_app, elem_of_cons. tauto.
Qed.

(** The outcome does not depend on [include_commit]: a name is rejected,
    translated or fails for both values alike. *)
Theorem translation_outcome_independent_of_flag name :
  (get_ssm_parameter_name name true = Ok None
   ↔ get_ssm_parameter_name name false = Ok None)
  ∧ (get_ssm_parameter_name name true = Raise IndexError
     ↔ get_ssm_parameter_name name false = Raise IndexError)
  ∧ ((∃ p, get_ssm_parameter_name name true = Ok (Some p))
     ↔ (∃ p, get_ssm_parameter_name name false = Ok (Some p))).
Proof.
  rewrite !get_ssm_parameter_name_outcome.
  case_decide; [naive_solver|].
  destruct (_ !! _); naive_solver.
Qed.

(** A name of seven or more tokens without the tokens [nvidia] and [fips]
    is always translated: the family is the three tokens from index 2 of
    the corrected tokens and the architecture is the token at index 5. *)
Theorem untagged_names_always_translate name include_commit :
  7 ≤ length (PyStr.split dash name) →
  "nvidia" ∉ PyStr.split dash name →
  "fips" ∉ PyStr.split dash name →
  ∃ arch,
    corrected_parts name !! 5 = Some arch
    ∧ get_ssm_parameter_name name include_commit
      = Ok (Some (path_of (join "-" (slice 2 5 (corrected_parts name)))
                          (convert_arch arch)
                          (version_string_of include_commit
                             (parsed_version name) (parsed_commit name)))).
Proof.
  intros Hlen Hnv Hfips.
  assert (∀ x, x ≠ "aws" → x ∉ PyStr.split dash name →
               mem x (corrected_parts name) = false) as Hmem.
  { intros x Hx Hnotin. apply bool_decide_eq_false.
    intros [?|?]%elem_of_ensure_aws_inv; done. }
  assert (variant_and_arch_index (corrected_parts name)
          = (join "-" (slice 2 5 (corrected_parts name)), 5)) as Hvai.
  { unfold variant_and_arch_index. by rewrite !Hmem. }
  pose proof (length_ensure_aws (PyStr.split dash name)) as Hlen'.
  destruct (lookup_lt_is_Some_2 (corrected_parts name) 5) as [arch Harch].
  { unfold corrected_parts. lia. }
  exists arch. split; [done|].
  rewrite get_ssm_parameter_name_outcome. case_decide; [lia|].
  rewrite Hvai. simpl. by rewrite Harch.
Qed.

Lemma untagged_names_always_translate_witness :
  ∃ arch,
    corrected_parts "bottlerocket-aws-k8s-1.24-aarch64-v1.24.3-abcdef0123" !! 5
      = Some arch
    ∧ get_ssm_parameter_name
        "bottlerocket-aws-k8s-1.24-aarch64-v1.24.3-abcdef0123" false
      = Ok (Some (path_of
                    (join "-" (slice 2 5 (corrected_parts
                       "bottlerocket-aws-k8s-1.24-aarch64-v1.24.3-abcdef0123")))
                    (convert_arch arch)
                    (version_string_of false
                       (parsed_version
                          "bottlerocket-aws-k8s-1.24-aarch64-v1.24.3-abcdef0123")
                       (parsed_commit
                          "bottlerocket-aws-k8s-1.24-aarch64-v1.24.3-abcdef0123")))).
Proof.
  apply (untagged_names_always_translate
           "bottlerocket-aws-k8s-1.24-aarch64-v1.24.3-abcdef0123" false).
  - vm_compute. lia.
  - refine (bool_decide_unpack _ _). vm_compute. exact I.
  - refine (bool_decide_unpack _ _). vm_compute. exact I.
Defined.

(** The translator raises exactly when the variant tag it goes by, the
    first [nvidia] or else the first [fips], is the last token. *)
Theorem translator_raises_iff_tag_is_last name include_commit :
  get_ssm_parameter_name name include_commit = Raise IndexError
  ↔ 7 ≤ length (PyStr.split dash name)
    ∧ (("nvidia" ∈ corrected_parts name
        ∧ index "nvidia" (corrected_parts name) + 1
          = length (corrected_parts name))
       ∨ (("nvidia" ∉ corrected_parts name) ∧ "fips" ∈ corrected_parts name
          ∧ index "fips" (corrected_parts name) + 1
            = length (corrected_parts name))).
Proof.
  rewrite get_ssm_parameter_name_outcome.
  pose proof (length_ensure_aws (PyStr.split dash name)) as Hlen'.
  fold (corrected_parts name) in Hlen'.
  case_decide as Hlen; [split; [done|lia]|].
  unfold variant_and_arch_index.
  destruct (mem "nvidia" (corrected_parts name)) eqn:Hnv.
  - apply mem_true in Hnv as Hin. pose proof (index_lt _ _ Hin) as Hi. simpl.
    destruct (_ !! _) as [arch|] eqn:Harch.
    + apply lookup_lt_Some in Harch. split; [done|]. intros [_ [[_ ?]|[? _]]]; [lia|done].
    + apply lookup_ge_None in Harch. split; [|done].
      intros _. split; [lia|]. left. split; [done|lia].
  - assert ("nvidia" ∉ corrected_parts name) as Hnotin.
    { intros Hin%mem_true. congruence. }
    destruct (mem "fips" (corrected_parts name)) eqn:Hf.
    + apply mem_true in Hf as Hin. pose proof (index_lt _ _ Hin) as Hi. simpl.
      destruct (_ !! _) as [arch|] eqn:Harch.
      * apply lookup_lt_Some in Harch. split; [done|].
        intros [_ [[? _]|(_ & _ & ?)]]; [done|lia].
      * apply lookup_ge_None in Harch. split; [|done].
        intros _. split; [lia|]. right. repeat split; [done..|lia].
    + assert ("fips" ∉ corrected_parts name) as Hnotin'.
      { intros Hin%mem_true. congruence. }
      simpl. destruct (_ !! 5) as [arch|] eqn:Harch.
      * split; [done|]. intros [_ [[? _]|(_ & ? & _)]]; done.
      * apply lookup_ge_None in Harch. lia.
Qed.

(** The commit SHA prefix has at most eight characters, whatever the
    name. *)
Theorem commit_prefix_at_most_eight name :
  String.length (parsed_commit name) ≤ 8.
Proof.
  assert (∀ n s, String.length (prefix n s) ≤ n) as Hprefix.
  { induction n as [|n IH]; intros [|c s]; simpl; try lia.
    specialize (IH s). lia. }
  unfold parsed_commit, version_and_commit.
  case_decide; cbn [snd]; [apply Hprefix|].
  destruct (item_last _); [apply Hprefix|]. simpl. lia.
Qed.
End TranslatorMore.

Section TranslatedPaths.
Import PyStr PyList Translator.

Lemma startswith_app prefix s : PyText.startswith prefix (prefix +:+ s) = true.
Proof.
  induction prefix as [|c prefix IH]; simpl; [done|].
  by rewrite Ascii.eqb_refl, IH.
Qed.

Lemma endswith_refl suffix : PyText.endswith suffix suffix = true.
Proof. destruct suffix; simpl; [done|]. by rewrite Ascii.eqb_refl, String.eqb_refl. Qed.

Lemma endswith_app_r suffix a b :
  PyText.endswith suffix b = true → PyText.endswith suffix (a +:+ b) = true.
Proof.
  intros Hb. induction a as [|c a IH]; simpl; [done|].
  rewrite IH. apply orb_true_r.
Qed.

(** Every path the translator returns lies under
    [aws/service/bottlerocket/] and ends with [/image_id], the suffix the
    comparison side selects parameters by. *)
Theorem translated_path_prefix_and_suffix name include_commit path :
  get_ssm_parameter_name name include_commit = Ok (Some path) →
  PyText.startswith "aws/service/bottlerocket/" path = true
  ∧ PyText.endswith "/image_id" path = true
  ∧ PyText.lstrip slash path = path.
Proof.
  rewrite get_ssm_parameter_name_outcome.
  case_decide; [done|]. destruct (_ !! _) as [arch|]; [|done].
  intros [= <-]. unfold path_of. split; [apply startswith_app|]. split; [|done].
  do 6 apply endswith_app_r. apply endswith_refl.
Qed.

Lemma translated_path_prefix_and_suffix_witness :
  PyText.startswith "aws/service/bottlerocket/"
    "aws/service/bottlerocket/aws-ecs-1/x86_64/1.14.3/image_id" = true
  ∧ PyText.endswith "/image_id"
      "aws/service/bottlerocket/aws-ecs-1/x86_64/1.14.3/image_id" = true
  ∧ PyText.lstrip slash
      "aws/service/bottlerocket/aws-ecs-1/x86_64/1.14.3/image_id"
    = "aws/service/bottlerocket/aws-ecs-1/x86_64/1.14.3/image_id".
Proof.
  apply (translated_path_prefix_and_suffix
           "bottlerocket-aws-ecs-1-x86_64-v1.14.3-0a1b2c3d4e" false).
  reflexivity.
Defined.

(** In a path translated from a name without [/], the architecture is the
    fifth segment, and it is never [aarch64]: that token becomes [arm64]. *)
Theorem translated_architecture_is_normalized name include_commit path :
  contains slash name = false →
  get_ssm_parameter_name name include_commit = Ok (Some path) →
  ∃ token,
    corrected_parts name
      !! (variant_and_arch_index (corrected_parts name)).2 = Some token
    ∧ PyStr.split slash path !! 4
      = Some (if decide (token = "aarch64") then "arm64" else token)
    ∧ PyStr.split slash path !! 4 ≠ Some "aarch64".
Proof.
  intros Hname Hpath.
  destruct (translated_path_segments _ _ _ Hname Hpath)
    as (variant & arch & Hva & _ & Hseg).
  rewrite get_ssm_parameter_name_outcome in Hpath.
  case_decide; [done|].
  destruct (_ !! _) as [token|] eqn:Htoken; [|done].
  exists token. split; [done|]. rewrite Hseg. simpl.
  injection Hva as _ ->. simpl. unfold convert_arch.
  split; [done|]. case_decide; [done|congruence].
Qed.

Lemma translated_architecture_is_normalized_witness :
  ∃ token,
    corrected_parts "bottlerocket-aws-k8s-1.24-aarch64-v1.24.3-abcdef0123"
      !! 5 = Some token
    ∧ PyStr.split slash
        "aws/service/bottlerocket/aws-k8s-1.24/arm64/1.24.3/image_id" !! 4
      = Some (if decide (token = "aarch64") then "arm64" else token)
    ∧ PyStr.split slash
        "aws/service/bottlerocket/aws-k8s-1.24/arm64/1.24.3/image_id" !! 4
      ≠ Some "aarch64".
Proof.
  apply (translated_architecture_is_normalized
           "bottlerocket-aws-k8s-1.24-aarch64-v1.24.3-abcdef0123" false);
    reflexivity.
Defined.

(** When the tokens hold [fips] and no [nvidia], the family runs from
    index 2 up to the first [fips] and the architecture is the token after
    it; when no token follows, the subscript raises. *)
Theorem fips_family_without_nvidia name include_commit :
  7 ≤ length (PyStr.split dash name) →
  "nvidia" ∉ PyStr.split dash name →
  "fips" ∈ PyStr.split dash name →
  get_ssm_parameter_name name include_commit =
    match corrected_parts name
            !! (index "fips" (corrected_parts name) + 1) with
    | Some arch =>
        Ok (Some (path_of
                    (join "-" (slice 2 (index "fips" (corrected_parts name) + 1)
                                     (corrected_parts name)))
                    (convert_arch arch)
                    (version_string_of include_commit
                       (parsed_version name) (parsed_commit name))))
    | None => Raise IndexError
    end.
Proof.
  intros Hlen Hnv Hfips.
  assert (mem "nvidia" (corrected_parts name) = false) as Hnv'.
  { apply bool_decide_eq_false. intros [?|?]%elem_of_ensure_aws_inv; done. }
  assert (mem "fips" (corrected_parts name) = true) as Hfips'.
  { apply mem_true. by apply elem_of_ensure_aws. }
  rewrite get_ssm_parameter_name_outcome. case_decide; [lia|].
  unfold variant_and_arch_index. by rewrite Hnv', Hfips'.
Qed.

Lemma fips_family_without_nvidia_witness :
  get_ssm_parameter_name
    "bottlerocket-aws-k8s-1.28-fips-x86_64-v1.20.0-abcdef0123" true
  = Ok (Some "aws/service/bottlerocket/aws-k8s-1.28-fips/x86_64/1.20.0-abcdef01/image_id").
Proof.
  apply (fips_family_without_nvidia
           "bottlerocket-aws-k8s-1.28-fips-x86_64-v1.20.0-abcdef0123" true).
  - vm_compute. lia.
  - refine (bool_decide_unpack _ _). vm_compute. exact I.
  - refine (bool_decide_unpack _ _). vm_compute. exact I.
Defined.
End TranslatedPaths.

(** ** The translator and the filter together *)

Section TranslatorAndFilter.
Import PyStr PyList Translator VersionGate.

Lemma split_tokens_no_sep sep s :
  Forall (λ t, contains sep t = false) (PyStr.split sep s).
Proof.
  induction s as [|c s IH]; simpl; [by repeat constructor|].
  destruct (Ascii.eqb c sep) eqn:Hc; [constructor; [done|exact IH]|].
  destruct (PyStr.split sep s) as [|t ts].
  - constructor; [|done]. simpl. by rewrite Hc.
  - apply Forall_cons in IH as [Ht Hts]. constructor; [|done].
    simpl. by rewrite Hc, Ht.
Qed.

Lemma parsed_version_no_dash name : contains dash (parsed_version name) = false.
Proof.
  unfold parsed_version.
  assert (Forall (λ t, contains dash t = false) (corrected_parts name)) as Hparts.
  { unfold corrected_parts, ensure_aws, insert_at.
    pose proof (split_tokens_no_sep dash name) as Htok.
    case_decide; [done|].
    apply Forall_app. split; [by apply Forall_take|].
    constructor; [done|by apply Forall_drop]. }
  set (vp := version_parts_of _ _).
  assert (Forall (λ t, contains dash t = false) vp) as Hvp.
  { unfold vp, version_parts_of. apply Forall_forall.
    intros t [_ Ht]%list_elem_of_filter. revert t Ht.
    by apply Forall_forall, Forall_drop. }
  assert (contains dash (version_and_commit vp).1 = false) as Hv.
  { unfold version_and_commit, item_penultimate. case_decide; cbn [fst]; [|done].
    destruct (length vp) as [|[|n]]; [done..|].
    destruct (vp !! n) as [t|] eqn:Ht; [|done].
    exact (Forall_lookup_1 (λ t, contains dash t = false) _ _ _ Hvp Ht). }
  unfold strip_v. case_match; [by apply tail_without|done].
Qed.

(** The filter reads, from either path of an image (translated from a name
    without [/]), the version the translator parsed: the commit suffix is
    cut off, so both keys of an image pass or fail the filter together. *)
Theorem filter_reads_the_translated_version `{Packaging} name include_commit
    path :
  contains slash name = false →
  get_ssm_parameter_name name include_commit = Ok (Some path) →
  version_part path = Some (parsed_version name)
  ∧ parse_version path = version_parse (parsed_version name).
Proof.
  intros Hname Hpath.
  destruct (translated_path_segments _ _ _ Hname Hpath)
    as (variant & arch & _ & _ & Hseg).
  assert (version_part path = Some (parsed_version name)) as Hpart.
  { unfold version_part. change (PyStr.split "/" path) with (PyStr.split slash path).
    rewrite Hseg. simpl. f_equal.
    pose proof (parsed_version_no_dash name) as Hv.
    unfold version_string_of. destruct include_commit.
    - case_decide.
      + change (parsed_version name +:+ "-" +:+ parsed_commit name)
          with (parsed_version name +:+ String dash (parsed_commit name)).
        change (PyStr.split "-") with (PyStr.split dash).
        rewrite split_app_sep, (split_without_sep _ _ Hv). done.
      + change (PyStr.split "-") with (PyStr.split dash).
        by rewrite (split_without_sep _ _ Hv).
    - change (PyStr.split "-") with (PyStr.split dash).
      by rewrite (split_without_sep _ _ Hv). }
  split; [done|]. unfold parse_version. by rewrite Hpart.
Qed.

Lemma filter_reads_the_translated_version_witness :
  version_part "aws/service/bottlerocket/aws-ecs-1/x86_64/1.14.3-0a1b2c3d/image_id"
  = Some "1.14.3".
Proof.
  refine (proj1 (@filter_reads_the_translated_version Release.packaging
    "bottlerocket-aws-ecs-1-x86_64-v1.14.3-0a1b2c3d4e" true _ _ _));
    reflexivity.
Defined.
End TranslatorAndFilter.

(** ** More on the reconciliation *)

Section ReconcileMore.
Import Reconcile ReportNotions.
Context {V : Type} `{EqDecision V}.
Variable set_iter : gset string → list string.
Hypothesis set_iter_elements : ∀ X, set_iter X ≡ₚ elements X.
Implicit Types (s3_data ssm_data : gmap string V) (c : comparison V).

Lemma listed_loop s3_data ssm_data c ks :
  CompareMain.listed (foldl (compare_key s3_data ssm_data) c ks)
  = CompareMain.listed c + length ks.
Proof.
  revert c. induction ks as [|k ks IH]; intros c; simpl; [lia|].
  rewrite IH. unfold CompareMain.listed, compare_key.
  destruct (s3_data !! k), (ssm_data !! k); try case_decide; simpl;
    rewrite ?length_app; simpl; lia.
Qed.

(** The four lists of a comparison hold as many entries as the two
    mappings have keys together. *)
Theorem comparison_lists_one_entry_per_key s3_data ssm_data :
  CompareMain.listed (compare_region_results set_iter s3_data ssm_data)
  = size (dom s3_data ∪ dom ssm_data).
Proof.
  unfold compare_region_results. rewrite listed_loop.
  unfold CompareMain.listed, all_keys; simpl.
  by rewrite set_iter_elements.
Qed.

Lemma swap_loop s3_data ssm_data c ks :
  Forall (λ k, is_Some (s3_data !! k) ∨ is_Some (ssm_data !! k)) ks →
  foldl (compare_key ssm_data s3_data) (swap_sides c) ks
  = swap_sides (foldl (compare_key s3_data ssm_data) c ks).
Proof.
  intros Hks. revert c.
  induction Hks as [|k ks Hk _ IH]; intros c; simpl; [done|].
  rewrite <- IH. f_equal. unfold compare_key, swap_sides.
  destruct (s3_data !! k) as [a|] eqn:Ha, (ssm_data !! k) as [b|] eqn:Hb;
    simpl.
  - destruct (decide (a = b)) as [->|Hne]; simpl.
    + by rewrite decide_True.
    + rewrite decide_False by congruence. simpl. by rewrite fmap_app.
  - done.
  - done.
  - by destruct Hk as [[? ?]|[? ?]].
Qed.

Lemma same_entries_refl c : same_entries c c.
Proof. by repeat split. Qed.

Lemma same_entries_trans c1 c2 c3 :
  same_entries c1 c2 → same_entries c2 c3 → same_entries c1 c3.
Proof.
  intros (? & ? & ? & ?) (? & ? & ? & ?). repeat split; by etrans.
Qed.

Lemma compare_key_same_entries s3_data ssm_data c c' k :
  same_entries c c' →
  same_entries (compare_key s3_data ssm_data c k)
               (compare_key s3_data ssm_data c' k).
Proof.
  intros (Hm & Hmm & Hs3 & Hssm). unfold compare_key.
  destruct (s3_data !! k), (ssm_data !! k); try case_decide;
    repeat split; simpl; by rewrite ?Hm, ?Hmm, ?Hs3, ?Hssm.
Qed.

Lemma compare_loop_same_entries s3_data ssm_data c c' ks :
  same_entries c c' →
  same_entries (foldl (compare_key s3_data ssm_data) c ks)
               (foldl (compare_key s3_data ssm_data) c' ks).
Proof.
  revert c c'. induction ks as [|k ks IH]; intros c c' Hc; simpl; [done|].
  by apply IH, compare_key_same_entries.
Qed.

(** Two turns of the loop in either order list the same entries. *)
Lemma compare_key_exchange s3_data ssm_data c x y :
  same_entries
    (compare_key s3_data ssm_data (compare_key s3_data ssm_data c x) y)
    (compare_key s3_data ssm_data (compare_key s3_data ssm_data c y) x).
Proof.
  unfold compare_key.
  destruct (s3_data !! x), (ssm_data !! x), (s3_data !! y), (ssm_data !! y);
    repeat case_decide; repeat split; simpl; try done;
    rewrite <- !app_assoc; apply Permutation_app_head, perm_swap.
Qed.

(** The order in which the keys are visited only changes the order of the
    four lists. *)
Lemma compare_loop_permutation s3_data ssm_data ks ks' :
  ks ≡ₚ ks' →
  ∀ c, same_entries (foldl (compare_key s3_data ssm_data) c ks)
                    (foldl (compare_key s3_data ssm_data) c ks').
Proof.
  induction 1 as [|k ks ks' _ IH|x y ks|ks1 ks2 ks3 _ IH1 _ IH2];
    intros c; simpl.
  - apply same_entries_refl.
  - apply IH.
  - apply compare_loop_same_entries, compare_key_exchange.
  - by eapply same_entries_trans.
Qed.

(** Comparing the other way round gives the same comparison read from the
    other side, whatever the order in which each of the two calls visits
    the keys: the same keys match, every mismatch has its two values
    exchanged, and the two one-sided lists change places, each list up to
    the order of its entries. *)
Theorem compare_other_way_round (set_iter' : gset string → list string)
    s3_data ssm_data :
  (∀ X, set_iter' X ≡ₚ elements X) →
  matching (compare_region_results set_iter' ssm_data s3_data)
    ≡ₚ matching (compare_region_results set_iter s3_data ssm_data)
  ∧ mismatched (compare_region_results set_iter' ssm_data s3_data)
    ≡ₚ (λ m, Mismatch (key m) (ssm_value m) (s3_value m))
         <$> mismatched (compare_region_results set_iter s3_data ssm_data)
  ∧ only_in_s3 (compare_region_results set_iter' ssm_data s3_data)
    ≡ₚ only_in_ssm (compare_region_results set_iter s3_data ssm_data)
  ∧ only_in_ssm (compare_region_results set_iter' ssm_data s3_data)
    ≡ₚ only_in_s3 (compare_region_results set_iter s3_data ssm_data).
Proof.
  intros set_iter'_elements.
  change (same_entries
            (compare_region_results set_iter' ssm_data s3_data)
            (swap_sides (compare_region_results set_iter s3_data ssm_data))).
  unfold compare_region_results, all_keys.
  rewrite <- swap_loop.
  - apply compare_loop_permutation.
    by rewrite set_iter'_elements, set_iter_elements,
      (union_comm_L (dom ssm_data)).
  - apply Forall_forall. intros k Hk.
    rewrite set_iter_elements, elem_of_elements, elem_of_union in Hk.
    by rewrite !elem_of_dom in Hk.
Qed.

Lemma one_sided_loop s3_data c ks :
  Forall (λ k, is_Some (s3_data !! k)) ks →
  foldl (compare_key s3_data ∅) c ks
  = Comparison (matching c) (mismatched c) (only_in_s3 c ++ ks)
               (only_in_ssm c).
Proof.
  intros Hks. revert c.
  induction Hks as [|k ks [a Ha] _ IH]; intros c; simpl.
  - rewrite app_nil_r. by destruct c.
  - rewrite IH. unfold compare_key. rewrite Ha, lookup_empty. simpl.
    by rewrite <- app_assoc.
Qed.

(** Against an empty right-hand mapping, which is what a failed fetch of
    the parameters returns, every key of the left one is listed under
    [only_in_s3] and nothing else is listed. *)
Theorem compare_with_nothing_fetched s3_data :
  matching (compare_region_results set_iter s3_data ∅) = []
  ∧ mismatched (compare_region_results set_iter s3_data ∅) = []
  ∧ only_in_ssm (compare_region_results set_iter s3_data ∅) = []
  ∧ only_in_s3 (compare_region_results set_iter s3_data ∅)
    ≡ₚ elements (dom s3_data).
Proof.
  unfold compare_region_results, all_keys.
  rewrite dom_empty_L, (right_id_L ∅ (∪)).
  rewrite one_sided_loop.
  - simpl. by repeat split.
  - apply Forall_forall. intros k Hk.
    rewrite set_iter_elements, elem_of_elements in Hk.
    by apply elem_of_dom.
Qed.
End ReconcileMore.

Section ReconcileMoreWitnesses.
Import Reconcile ReportNotions.

Lemma comparison_lists_one_entry_per_key_witness :
  CompareMain.listed
    (compare_region_results elements
       (<["k1" := "ami-1"]> (<["k2" := "ami-2"]> (∅ : gmap string string)))
       (<["k1" := "ami-9"]> (∅ : gmap string string)))
  = size (dom (<["k1" := "ami-1"]> (<["k2" := "ami-2"]> (∅ : gmap string string)))
          ∪ dom (<["k1" := "ami-9"]> (∅ : gmap string string))).
Proof.
  apply (comparison_lists_one_entry_per_key elements). intros X. reflexivity.
Defined.

Lemma compare_other_way_round_witness :
  only_in_ssm
    (compare_region_results (λ X, reverse (elements X))
       (<["k1" := "ami-9"]> (∅ : gmap string string))
       (<["k1" := "ami-1"]> (<["k2" := "ami-2"]>
          (<["k3" := "ami-3"]> (∅ : gmap string string)))))
  ≡ₚ only_in_s3
       (compare_region_results elements
          (<["k1" := "ami-1"]> (<["k2" := "ami-2"]>
             (<["k3" := "ami-3"]> (∅ : gmap string string))))
          (<["k1" := "ami-9"]> (∅ : gmap string string))).
Proof.
  refine (proj2 (proj2 (proj2
    (compare_other_way_round elements _ (λ X, reverse (elements X)) _ _ _)))).
  - intros X. reflexivity.
  - intros X. apply reverse_Permutation.
Defined.

Lemma compare_with_nothing_fetched_witness :
  matching (compare_region_results elements
              (<["k1" := "ami-1"]> (∅ : gmap string string)) ∅) = [].
Proof.
  refine (proj1 (compare_with_nothing_fetched elements _ _)).
  intros X. reflexivity.
Defined.
End ReconcileMoreWitnesses.

(** ** The report of comparenew.py *)

Section CompareMainFacts.
Import Reconcile ReportNotions CompareMain.
Context {V : Type} `{EqDecision V}.
Variable set_iter : gset string → list string.
Variable dict_keys : gmap string (gmap string V) → list string.
Variable get_ssm_parameters_for_region : string → gmap string V.
Implicit Types (s3_results : gmap string (gmap string V)) (c : @report V).

#[local] Abbreviation step := (process_region set_iter get_ssm_parameters_for_region).
#[local] Abbreviation compared s3_data region :=
  (compare_region_results set_iter s3_data
     (get_ssm_parameters_for_region region)).

(** The entry of a region after the loop. *)
Lemma by_region_loop s3_results c rs region :
  by_region (foldl (step s3_results) c rs) !! region
  = match s3_results !! region with
    | Some s3_data =>
        if decide (region ∈ rs) then Some (compared s3_data region)
        else by_region c !! region
    | None => by_region c !! region
    end.
Proof.
  revert c. induction rs as [|r rs IH]; intros c; simpl.
  { by destruct (s3_results !! region). }
  rewrite IH. unfold process_region.
  destruct (s3_results !! region) as [s3_data|] eqn:Hregion.
  - destruct (decide (region ∈ rs)) as [Hin|Hnotin].
    + rewrite decide_True by (by right). done.
    + destruct (decide (region = r)) as [->|Hne].
      * rewrite decide_True by (by left). rewrite Hregion. simpl.
        by rewrite lookup_insert_eq.
      * rewrite decide_False by (by intros [?|?]%elem_of_cons).
        destruct (s3_results !! r); simpl; [|done].
        by rewrite lookup_insert_ne.
  - destruct (s3_results !! r) eqn:Hr; simpl; [|done].
    rewrite lookup_insert_ne; [done|]. intros ->. congruence.
Qed.

(** The report has an entry exactly for the requested regions that have S3
    data, the others being skipped, and the entry of a region is the
    comparison of its S3 data with the parameters fetched for it. *)
Theorem report_holds_the_regions_with_s3_data s3_results regions rep region :
  main set_iter dict_keys get_ssm_parameters_for_region s3_results regions
    = Some rep →
  by_region rep !! region
  = match s3_results !! region with
    | Some s3_data =>
        if decide (region ∈ regions_to_process dict_keys s3_results regions)
        then Some (compared s3_data region)
        else None
    | None => None
    end.
Proof.
  unfold main. case_decide; [done|]. intros [= <-].
  rewrite by_region_loop. simpl. rewrite lookup_empty.
  by repeat case_match.
Qed.


Lemma totals_add_up_step s3_results c region :
  by_region c !! region = None →
  ReportTotals.totals_add_up c →
  ReportTotals.totals_add_up (step s3_results c region).
Proof.
  intros Hfresh (Hm & Hmm & Hs3 & Hssm). unfold process_region.
  destruct (s3_results !! region) as [s3_data|]; [|done].
  unfold ReportTotals.totals_add_up, sum_over_regions. simpl.
  rewrite !(map_to_list_insert _ _ _ Hfresh). simpl.
  rewrite Hm, Hmm, Hs3, Hssm. unfold sum_over_regions.
  repeat split; apply Nat.add_comm.
Qed.

Lemma totals_add_up_loop s3_results c rs :
  NoDup rs → Forall (λ r, by_region c !! r = None) rs →
  ReportTotals.totals_add_up c →
  ReportTotals.totals_add_up (foldl (step s3_results) c rs).
Proof.
  intros Hnd. revert c.
  induction Hnd as [|r rs Hnotin Hnd IH]; intros c Hfresh Hc; simpl; [done|].
  apply Forall_cons in Hfresh as [Hr Hrs].
  apply IH; [|by apply totals_add_up_step].
  apply Forall_forall. intros r' Hr'.
  pose proof (by_region_loop s3_results c [r] r') as Hl. simpl in Hl.
  rewrite Hl. rewrite (proj1 (Forall_forall _ _) Hrs r' Hr').
  destruct (s3_results !! r'); [|done].
  rewrite decide_False; [done|].
  intros ->%list_elem_of_singleton. done.
Qed.

(** When no region is requested twice, the four totals of the summary are
    the sums, over the regions of the report, of the lengths of their four
    lists; the totals together count one entry per key of each region. *)
Theorem summary_totals_add_up s3_results regions rep :
  NoDup (regions_to_process dict_keys s3_results regions) →
  main set_iter dict_keys get_ssm_parameters_for_region s3_results regions
    = Some rep →
  ReportTotals.totals_add_up rep
  ∧ summary_total (report_summary rep)
    = sum_over_regions listed (by_region rep).
Proof.
  intros Hnd. unfold main. case_decide; [done|]. intros [= <-].
  assert (ReportTotals.totals_add_up
            (foldl (step s3_results) empty_report
                   (regions_to_process dict_keys s3_results regions))) as Hok.
  { apply totals_add_up_loop; [done| |].
    - apply Forall_forall. intros r _. apply lookup_empty.
    - unfold ReportTotals.totals_add_up, sum_over_regions. simpl.
      by rewrite map_to_list_empty. }
  split; [done|]. destruct Hok as (Hm & Hmm & Hs3 & Hssm).
  unfold summary_total. rewrite Hm, Hmm, Hs3, Hssm.
  unfold sum_over_regions, listed.
  induction ((map_to_list _).*2) as [|rc rcs IH]; simpl; [done|].
  rewrite <- IH. lia.
Qed.
End CompareMainFacts.

Section CompareMainWitnesses.
Import Reconcile ReportNotions CompareMain.

Lemma report_holds_the_regions_with_s3_data_witness :
  ∃ rep,
    main elements (λ m, elements (dom m)) (λ _, ∅)
      (<["us-west-2" := <["p" := "ami-1"]> (∅ : gmap string string)]> ∅)
      (Some ["us-west-2"; "eu-west-1"]) = Some rep
    ∧ by_region rep !! "eu-west-1" = None.
Proof.
  eexists. split; [reflexivity|].
  etrans.
  - apply (report_holds_the_regions_with_s3_data elements
             (λ m, elements (dom m)) (λ _, ∅)
             (<["us-west-2" := <["p" := "ami-1"]> (∅ : gmap string string)]> ∅)
             (Some ["us-west-2"; "eu-west-1"]) _ "eu-west-1").
    reflexivity.
  - reflexivity.
Defined.

Lemma summary_totals_add_up_witness :
  ∃ rep,
    main elements (λ m, elements (dom m)) (λ _, ∅)
      (<["us-west-2" := <["p" := "ami-1"]> (∅ : gmap string string)]> ∅)
      (Some ["us-west-2"; "eu-west-1"]) = Some rep
    ∧ ReportTotals.totals_add_up rep.
Proof.
  eexists. split; [reflexivity|].
  apply (summary_totals_add_up elements (λ m, elements (dom m)) (λ _, ∅)
           (<["us-west-2" := <["p" := "ami-1"]> (∅ : gmap string string)]> ∅)
           (Some ["us-west-2"; "eu-west-1"])).
  - simpl. apply NoDup_cons. split; [|apply NoDup_singleton].
    intros H%list_elem_of_singleton. discriminate.
  - reflexivity.
Defined.
End CompareMainWitnesses.

(** ** More on the filter *)

Section FilterMore.
Import PyStr VersionGate Frame FilterNotions.
Context `{Packaging}.

(** On a list of readable entries [filter_dict] returns, and keeps exactly
    the entries whose [key] passes, in their order. *)
Theorem filter_dict_keeps_passing_entries (h : heap) min_ver items :
  Forall (readable_entry h) items →
  filter_dict h min_ver items
  = Ok (filter (λ item, entry_passes h min_ver item = true) items).
Proof.
  induction 1 as [|item items (kvs & path & Hdict & Hkey) _ IH]; [done|].
  cbn [filter_dict]. unfold subscript_key. rewrite Hdict, Hkey.
  cbn [mbind result_bind parse_version_of]. rewrite IH.
  cbn [mbind result_bind].
  assert (entry_passes h min_ver item = keep_item min_ver (VStr path)) as Hpass
    by (unfold entry_passes; by rewrite Hdict, Hkey).
  rewrite filter_cons, Hpass. unfold keep_item.
  destruct (parse_version path) as [parsed_ver|].
  - destruct (version_ge parsed_ver min_ver).
    + by rewrite decide_True.
    + by rewrite decide_False.
  - by rewrite decide_False.
Qed.

(** A list with an entry that is not readable makes [filter_dict] raise:
    [TypeError] for what is not a dict, [KeyError] for a dict without
    [key], [AttributeError] for a [key] that is not a string. *)
Theorem filter_dict_raises_on_unreadable_entry (h : heap) min_ver items :
  ¬ Forall (readable_entry h) items →
  filter_dict h min_ver items = Raise TypeError
  ∨ filter_dict h min_ver items = Raise KeyError
  ∨ filter_dict h min_ver items = Raise AttributeError.
Proof.
  induction items as [|item items IH]; simpl; [by intros []|].
  intros Hnot. unfold subscript_key.
  destruct (as_dict h item) as [kvs|] eqn:Hdict; [|by left].
  destruct (dict_get "key" kvs) as [k|] eqn:Hkey; [|by right; left].
  simpl. destruct k as [| | |path|]; simpl; try by right; right.
  destruct IH as [IH|[IH|IH]]; try (rewrite IH; simpl; tauto).
  intros Hitems. apply Hnot. constructor; [|done]. by exists kvs, path.
Qed.

Lemma for_each_unchanged {A} (body : heap → A → result heap) xs (h : heap) :
  Forall (λ x, body h x = Ok h) xs → for_each body xs h = Ok h.
Proof. induction 1 as [|x xs Hx _ IH]; simpl; [done|]. by rewrite Hx. Qed.

(** A dict none of whose values is a dict, and which holds no list under
    one of the five key names the filter assigns to, is left as it is: the
    call returns the store unchanged. *)
Theorem filter_leaves_other_dicts_alone d (h : heap) l kvs min_version
    min_ver :
  version_parse min_version = Some min_ver →
  h !! l = Some (ODict kvs) →
  Forall (λ kv, as_dict h kv.2 = None
                ∧ (as_list h kv.2 = None ∨ ¬ assigned_key kv.1)) kvs →
  filter_versions (S d) h (VRef l) min_version = Ok h.
Proof.
  intros Hmin Hl Hkvs. simpl. unfold filter_versions_body.
  rewrite Hmin, Hl. apply for_each_unchanged.
  apply Forall_forall. intros i Hi%elem_of_seq. unfold dict_step. rewrite Hl.
  destruct (kvs !! i) as [[k value]|] eqn:Hkv; [|done].
  destruct (Forall_lookup_1 _ _ _ _ Hkvs Hkv) as [Hdict Hlist]. simpl in *.
  rewrite Hdict. destruct (as_list h value) as [items|]; [|done].
  destruct Hlist as [?|Hkey]; [done|].
  rewrite bool_decide_eq_false_2 by (intros ?; apply Hkey; by left).
  rewrite decide_False by (intros ?; apply Hkey; by right). done.
Qed.

(** A path without [/] has no version part, so the filter drops it
    whatever the minimum version is. *)
Theorem paths_without_slash_are_dropped path min_ver items :
  contains "/" path = false →
  version_part path = None ∧ VStr path ∉ filter_list min_ver items.
Proof.
  intros Hpath.
  assert (version_part path = None) as Hpart.
  { unfold version_part. by rewrite (split_without_sep _ _ Hpath). }
  split; [done|]. rewrite elem_of_filter_list.
  intros (_ & s & v & [= <-] & Hv & _).
  unfold parse_version in Hv. by rewrite Hpart in Hv.
Qed.

(** A dict whose first value is the dict itself sends the filter into
    unbounded recursion: for every depth the interpreter allows, the call
    ends in [RecursionError]. *)
Theorem self_reference_ends_in_recursion_error depth (h : heap) l k rest
    min_version min_ver :
  version_parse min_version = Some min_ver →
  h !! l = Some (ODict ((k, VRef l) :: rest)) →
  filter_versions depth h (VRef l) min_version = Raise RecursionError.
Proof.
  intros Hmin Hl. induction depth as [|d IH]; simpl; [done|].
  unfold filter_versions_body. rewrite Hmin, Hl. simpl.
  unfold dict_step. rewrite Hl. simpl. rewrite Hl. by rewrite IH.
Qed.

(** Filtering what has been filtered changes no contents: a second call
    on the dict leaves, under the same key, a list with the same
    elements. *)
Theorem filtering_twice_keeps_the_contents d (h : heap) l li k items
    min_version min_ver :
  version_parse min_version = Some min_ver →
  h !! l = Some (ODict [(k, VRef li)]) →
  h !! li = Some (OList items) →
  k ∈ filtered_keys →
  ∃ h1 h2 : heap,
    filter_versions (S d) h (VRef l) min_version = Ok h1
    ∧ filter_versions (S d) h1 (VRef l) min_version = Ok h2
    ∧ ∃ v1 v2,
        h1 !! l = Some (ODict [(k, v1)]) ∧ h2 !! l = Some (ODict [(k, v2)])
        ∧ as_list h1 v1 = Some (filter_list min_ver items)
        ∧ as_list h2 v2 = Some (filter_list min_ver items).
Proof.
  intros Hmin Hl Hli Hk.
  pose proof (lookup_lt_Some _ _ _ Hl) as Hlt.
  set (h1 := <[l := ODict [(k, VRef (length h))]]>
               (h ++ [OList (filter_list min_ver items)])).
  assert (h1 !! l = Some (ODict [(k, VRef (length h))])) as Hl1.
  { apply list_lookup_insert_eq. rewrite length_app. lia. }
  assert (h1 !! length h = Some (OList (filter_list min_ver items))) as Hn1.
  { unfold h1. rewrite list_lookup_insert_ne by lia.
    by apply list_lookup_middle. }
  exists h1, (<[l := ODict [(k, VRef (length h1))]]>
               (h1 ++ [OList (filter_list min_ver (filter_list min_ver items))])).
  split; [by apply (filter_versions_single_list d h l li k items)|].
  split.
  { by apply (filter_versions_single_list d h1 l (length h) k
                (filter_list min_ver items)). }
  exists (VRef (length h)), (VRef (length h1)).
  split; [done|]. split.
  { apply list_lookup_insert_eq. rewrite length_app. unfold h1.
    rewrite length_insert, length_app. lia. }
  split; [by simpl; rewrite Hn1|]. simpl.
  rewrite list_lookup_insert_ne
    by (unfold h1; rewrite length_insert, length_app; simpl; lia).
  rewrite list_lookup_middle by done.
  f_equal. unfold filter_list. apply list_filter_filter_l. tauto.
Qed.
End FilterMore.

Section FilterMoreWitnesses.
Import PyStr VersionGate Frame FilterNotions.
#[local] Existing Instance Release.packaging.

Lemma filter_dict_keeps_passing_entries_witness :
  filter_dict (load Samples.wrong_owner_doc []).1 [1; 14; 3]%N [VRef 0]
  = Ok [VRef 0].
Proof.
  apply (@filter_dict_keeps_passing_entries Release.packaging
           (load Samples.wrong_owner_doc []).1 [1; 14; 3]%N [VRef 0]).
  constructor; [|constructor]. eexists _, _. split; reflexivity.
Defined.

Lemma filter_dict_raises_on_unreadable_entry_witness :
  filter_dict [] [1; 14; 3]%N [VNum 3] = Raise TypeError
  ∨ filter_dict [] [1; 14; 3]%N [VNum 3] = Raise KeyError
  ∨ filter_dict [] [1; 14; 3]%N [VNum 3] = Raise AttributeError.
Proof.
  apply (@filter_dict_raises_on_unreadable_entry Release.packaging
           [] [1; 14; 3]%N [VNum 3]).
  intros Hall. apply Forall_cons in Hall as [(kvs & path & Hdict & _) _].
  discriminate Hdict.
Defined.

Lemma filter_leaves_other_dicts_alone_witness :
  filter_versions 1 [ODict [("total_matching", VNum 3)]] (VRef 0) "1.14.3"
  = Ok [ODict [("total_matching", VNum 3)]].
Proof.
  apply (@filter_leaves_other_dicts_alone Release.packaging 0
           [ODict [("total_matching", VNum 3)]] 0
           [("total_matching", VNum 3)] "1.14.3" [1; 14; 3]%N).
  - reflexivity.
  - reflexivity.
  - constructor; [|constructor]. split; [reflexivity|]. left. reflexivity.
Defined.

Lemma paths_without_slash_are_dropped_witness :
  version_part "image_id" = None
  ∧ VStr "image_id" ∉ filter_list [1; 14; 3]%N [VStr "image_id"].
Proof.
  apply (@paths_without_slash_are_dropped Release.packaging "image_id"
           [1; 14; 3]%N [VStr "image_id"]).
  reflexivity.
Defined.

Lemma self_reference_ends_in_recursion_error_witness :
  filter_versions recursion_limit [ODict [("self", VRef 0)]] (VRef 0) "1.14.3"
  = Raise RecursionError.
Proof.
  apply (@self_reference_ends_in_recursion_error Release.packaging
           recursion_limit [ODict [("self", VRef 0)]] 0 "self" []
           "1.14.3" [1; 14; 3]%N); reflexivity.
Defined.

Lemma filtering_twice_keeps_the_contents_witness :
  ∃ h1 h2 : heap,
    filter_versions 1
      [OList [VStr Samples.path_1_14_10]; ODict [("matching", VRef 0)]]
      (VRef 1) "1.14.3" = Ok h1
    ∧ filter_versions 1 h1 (VRef 1) "1.14.3" = Ok h2
    ∧ ∃ v1 v2,
        h1 !! 1 = Some (ODict [("matching", v1)])
        ∧ h2 !! 1 = Some (ODict [("matching", v2)])
        ∧ as_list h1 v1
          = Some (filter_list [1; 14; 3]%N [VStr Samples.path_1_14_10])
        ∧ as_list h2 v2
          = Some (filter_list [1; 14; 3]%N [VStr Samples.path_1_14_10]).
Proof.
  apply (@filtering_twice_keeps_the_contents Release.packaging 0
           [OList [VStr Samples.path_1_14_10]; ODict [("matching", VRef 0)]]
           1 0 "matching" [VStr Samples.path_1_14_10] "1.14.3" [1; 14; 3]%N).
  - reflexivity.
  - reflexivity.
  - reflexivity.
  - unfold filtered_keys. set_solver.
Defined.
End FilterMoreWitnesses.

(** ** Merging the results of the tags *)

Section MergeFacts.
Import AmiMapping.
Implicit Types (final data : results)
  (all_results more_results : list (option results)).

(** What one tag's result leaves for a region: its mapping on top of the
    one that was there. *)
Lemma merge_tag_result_lookup final (tag_result : results) region :
  merge_tag_result final tag_result !! region
  = match tag_result !! region with
    | Some region_data =>
        Some (region_data ∪ default ∅ (final !! region))
    | None => final !! region
    end.
Proof.
  unfold merge_tag_result.
  apply (map_fold_weak_ind
    (λ r (m : results),
       r !! region = match m !! region with
                     | Some region_data =>
                         Some (region_data ∪ default ∅ (final !! region))
                     | None => final !! region
                     end)).
  - by rewrite lookup_empty.
  - intros i x m r Hi IH. unfold merge_region.
    destruct (decide (i = region)) as [->|Hne].
    + rewrite !lookup_insert_eq. rewrite IH, Hi. done.
    + by rewrite !lookup_insert_ne.
Qed.

Lemma image_of_merge_tag_result final (tag_result : results) region path :
  image_of (merge_tag_result final tag_result) region path
  = match image_of tag_result region path with
    | Some value => Some value
    | None => image_of final region path
    end.
Proof.
  unfold image_of. rewrite merge_tag_result_lookup.
  destruct (tag_result !! region) as [region_data|]; simpl; [|done].
  rewrite lookup_union.
  destruct (region_data !! path) as [v|]; simpl.
  - by destruct (default ∅ (final !! region) !! path).
  - destruct (final !! region) as [old|]; simpl.
    + by destruct (old !! path).
    + by rewrite lookup_empty.
Qed.

Lemma image_of_merge_loop final all_results region path :
  image_of
    (foldl (λ final_results tag_result,
              match tag_result with
              | Some tag_result =>
                  if decide (tag_result = ∅) then final_results
                  else merge_tag_result final_results tag_result
              | None => final_results
              end) final all_results) region path
  = match latest all_results region path with
    | Some value => Some value
    | None => image_of final region path
    end.
Proof.
  revert final. induction all_results as [|[tr|] rest IH]; intros final;
    simpl; [done| |].
  - rewrite IH. destruct (latest rest region path); [done|]. simpl.
    case_decide as Hempty.
    + subst tr. unfold image_of at 2. by rewrite lookup_empty.
    + apply image_of_merge_tag_result.
  - rewrite IH. by destruct (latest rest region path).
Qed.

(** The merged results hold, for a path of a region, what the last tag
    result that has this path holds: later tags override earlier ones. *)
Theorem merge_results_last_one_wins all_results region path :
  image_of (merge_results all_results) region path
  = latest all_results region path.
Proof.
  unfold merge_results. rewrite image_of_merge_loop.
  destruct (latest all_results region path); [done|].
  unfold image_of. by rewrite lookup_empty.
Qed.

(** Merging a single result gives that result back. *)
Theorem merge_results_single data : merge_results [Some data] = data.
Proof.
  unfold merge_results. simpl. case_decide; [done|].
  apply map_eq. intros region. rewrite merge_tag_result_lookup, lookup_empty.
  destruct (data !! region) as [region_data|]; [|done]. simpl.
  by rewrite (right_id_L ∅ (∪)).
Qed.

Lemma merge_loop_lookup final all_results region :
  foldl (λ final_results tag_result,
           match tag_result with
           | Some tag_result =>
               if decide (tag_result = ∅) then final_results
               else merge_tag_result final_results tag_result
           | None => final_results
           end) final all_results !! region
  = match merge_results all_results !! region with
    | Some region_data =>
        Some (region_data ∪ default ∅ (final !! region))
    | None => final !! region
    end.
Proof.
  revert final. induction all_results as [|tr rest IH] using rev_ind;
    intros final.
  { unfold merge_results. simpl. by rewrite lookup_empty. }
  unfold merge_results. rewrite !foldl_app. simpl.
  fold (merge_results rest).
  assert (∀ acc tag_result,
            (if decide (tag_result = ∅) then acc
             else merge_tag_result acc tag_result) !! region
            = merge_tag_result acc tag_result !! region) as Hskip.
  { intros acc tag_result. case_decide as Hempty; [|done]. subst.
    by rewrite merge_tag_result_lookup, lookup_empty. }
  destruct tr as [tag_result|]; [|apply IH].
  rewrite !Hskip, !merge_tag_result_lookup, IH.
  destruct (tag_result !! region) as [d|]; [|done].
  destruct (merge_results rest !! region) as [m|]; simpl.
  - by rewrite (assoc_L (∪)).
  - by rewrite (right_id_L ∅ (∪)).
Qed.

Lemma merge_results_app all_results more_results :
  merge_results (all_results ++ more_results)
  = foldl (λ final_results tag_result,
             match tag_result with
             | Some tag_result =>
                 if decide (tag_result = ∅) then final_results
                 else merge_tag_result final_results tag_result
             | None => final_results
             end) (merge_results all_results) more_results.
Proof. unfold merge_results. apply foldl_app. Qed.

(** Merging in two batches, and then the two merged results, gives what
    merging all the results at once gives. *)
Theorem merge_results_in_batches all_results more_results :
  merge_results (all_results ++ more_results)
  = merge_results [Some (merge_results all_results);
                   Some (merge_results more_results)].
Proof.
  apply map_eq. intros region.
  rewrite merge_results_app, merge_loop_lookup.
  change [Some (merge_results all_results); Some (merge_results more_results)]
    with ([Some (merge_results all_results)]
          ++ [Some (merge_results more_results)]).
  by rewrite merge_results_app, merge_loop_lookup, !merge_results_single.
Qed.
End MergeFacts.

(** ** The mapping built from an AMI file *)

Section AmiMappingFacts.
Import Translator VersionGate AmiMapping AmiNotions.
Implicit Types (data res : results) (info : json)
  (ami_data members : list (string * json)).

Lemma translated_path_truthy name include_commit path :
  get_ssm_parameter_name name include_commit = Ok (Some path) →
  truthy (Some path) = true.
Proof.
  rewrite get_ssm_parameter_name_outcome.
  case_decide; [done|]. destruct (_ !! _); [|done]. by intros [= <-].
Qed.

(** A member name that is new goes to the end. *)
Lemma set_item_fresh k v (items : list (string * json)) :
  k ∉ items.*1 → set_item k v items = items ++ [(k, v)].
Proof.
  induction items as [|[k' v'] items IH]; simpl; [done|].
  intros [Hne Hfresh]%not_elem_of_cons.
  rewrite decide_False by done. by rewrite IH.
Qed.

Lemma loaded_items_from (items : list (string * json)) members :
  NoDup (items ++ members).*1 →
  foldl (λ items member, set_item member.1 member.2 items) items members
  = items ++ members.
Proof.
  revert items. induction members as [|[k v] members IH]; intros items Hnd;
    simpl.
  - by rewrite app_nil_r.
  - rewrite set_item_fresh.
    + rewrite IH; rewrite <- app_assoc; done.
    + rewrite fmap_app, fmap_cons in Hnd.
      apply NoDup_app in Hnd as (_ & Hfresh & _).
      intros Hin. apply (Hfresh _ Hin). by left.
Qed.

(** An object without repeated member names is loaded as it is written. *)
Lemma loaded_items_NoDup members :
  NoDup members.*1 → loaded_items members = members.
Proof. intros Hnd. by apply (loaded_items_from []). Qed.

(** What the loop body does with an entry: it raises what the entry fails
    with, or goes on. *)
Lemma process_entry_outcome data region info :
  match process_entry data (region, info) with
  | Ok _ => entry_failure info = None
  | Raise e => entry_failure info = Some e
  end.
Proof.
  unfold process_entry, entry_failure, entry_name.
  destruct info as [| | | |?|members]; try done. cbn [get mbind result_bind].
  destruct (default (JStr "") _) as [| | |ami_name| |]; try done.
  cbn [translate].
  destruct (translation_outcome_independent_of_flag ami_name)
    as (Hnone & Hraise & Hsome).
  destruct (get_ssm_parameter_name ami_name true) as [[full|]|e] eqn:Hfull.
  - destruct Hsome as [[version Hversion] _]; [by eexists|].
    rewrite Hversion. cbn [mbind result_bind]. unfold add_parameter.
    rewrite (translated_path_truthy _ _ _ Hfull),
      (translated_path_truthy _ _ _ Hversion).
    done.
  - by rewrite (proj1 Hnone eq_refl).
  - done.
Qed.

(** What an entry leaves at a region: its own mapping on top of what the
    region had, and the other regions as they were. *)
Lemma process_entry_lookup data region info data' r :
  process_entry data (region, info) = Ok data' →
  data' !! r
  = if decide (r = region)
    then Some (entry_mapping info ∪ default ∅ (data !! region))
    else data !! r.
Proof.
  unfold process_entry, entry_mapping, entry_name, entry_id.
  set (data0 := if decide (is_Some (data !! region)) then data
                else <[region := ∅]> data).
  assert (data0 !! region = Some (default ∅ (data !! region))) as Hregion.
  { unfold data0. case_decide as Hsome.
    - by destruct Hsome as [m ->].
    - rewrite lookup_insert_eq. apply eq_None_not_Some in Hsome.
      by rewrite Hsome. }
  assert (∀ r', r' ≠ region → data0 !! r' = data !! r') as Hother.
  { intros r' Hne. unfold data0. case_decide; [done|].
    by rewrite lookup_insert_ne. }
  clearbody data0.
  destruct info as [| | | |?|members]; try done. cbn [get mbind result_bind].
  destruct (default (JStr "") _) as [| | |ami_name| |]; try done.
  cbn [translate].
  set (id := default JNull (get_item "id" (loaded_items members))).
  destruct (translation_outcome_independent_of_flag ami_name)
    as (Hnone & Hraise & Hsome).
  destruct (get_ssm_parameter_name ami_name true) as [[full|]|e] eqn:Hfull;
    cbn [mbind result_bind]; [| |done].
  - destruct Hsome as [[version Hversion] _]; [by eexists|].
    rewrite Hversion. cbn [mbind result_bind]. unfold add_parameter.
    rewrite (translated_path_truthy _ _ _ Hfull),
      (translated_path_truthy _ _ _ Hversion).
    cbn [get mbind result_bind]. fold id. intros [= <-].
    unfold set_path. case_decide as Hr.
    + subst r. rewrite lookup_insert_eq. rewrite lookup_insert_eq. simpl.
      rewrite Hregion. simpl. f_equal.
      by rewrite <- !insert_union_l, (left_id_L ∅ (∪)).
    + rewrite !lookup_insert_ne by done. by apply Hother.
  - rewrite (proj1 Hnone eq_refl). cbn [mbind result_bind add_parameter].
    intros [= <-]. case_decide as Hr.
    + subst r. by rewrite Hregion, (left_id_L ∅ (∪)).
    + by apply Hother.
Qed.

Lemma process_entries_other data ami_data res r :
  process_entries data ami_data = Ok res →
  r ∉ ami_data.*1 → res !! r = data !! r.
Proof.
  revert data. induction ami_data as [|[region info] rest IH]; intros data;
    cbn [process_entries].
  { by intros [= <-]. }
  destruct (process_entry data (region, info)) as [data'|] eqn:Hentry;
    simpl; [|done].
  intros Hrest [Hne Hnotin]%not_elem_of_cons.
  rewrite (IH _ Hrest Hnotin), (process_entry_lookup _ _ _ _ r Hentry).
  by rewrite decide_False.
Qed.

Lemma process_entries_lookup data ami_data res region info :
  NoDup ami_data.*1 →
  process_entries data ami_data = Ok res →
  (region, info) ∈ ami_data →
  res !! region = Some (entry_mapping info ∪ default ∅ (data !! region)).
Proof.
  revert data. induction ami_data as [|[r i] rest IH]; intros data Hnd;
    cbn [process_entries].
  { by intros _ ?%elem_of_nil. }
  rewrite fmap_cons in Hnd. apply NoDup_cons in Hnd as [Hfresh Hnd].
  simpl in Hfresh.
  destruct (process_entry data (r, i)) as [data'|] eqn:Hentry; simpl; [|done].
  intros Hrest [[= -> ->]|Hin]%elem_of_cons.
  - rewrite (process_entries_other _ _ _ _ Hrest Hfresh).
    rewrite (process_entry_lookup _ _ _ _ r Hentry). by rewrite decide_True.
  - rewrite (IH _ Hnd Hrest Hin).
    rewrite (process_entry_lookup _ _ _ _ region Hentry).
    rewrite decide_False; [done|].
    intros ->. apply Hfresh. apply list_elem_of_fmap. by exists (r, info).
Qed.

(** From an AMI file whose regions are distinct, the result holds a mapping
    for exactly the regions of the file, and the mapping of a region is the
    one its entry stands for: the id under both parameter paths of the
    name, or the empty mapping when the name is not translated. *)
Theorem process_ami_json_maps_every_region members res region :
  NoDup members.*1 →
  process_ami_json (Document (JObj members)) = Returned (Some res) →
  res !! region
  = entry_mapping <$> ((list_to_map members : gmap string json) !! region).
Proof.
  intros Hnd. unfold process_ami_json.
  rewrite (loaded_items_NoDup _ Hnd).
  destruct (process_entries ∅ members) as [data|] eqn:Hentries; [|done].
  intros [= <-].
  destruct ((list_to_map members : gmap string json) !! region)
    as [info|] eqn:Hlookup; simpl.
  - apply (elem_of_list_to_map_2 (M := gmap string)) in Hlookup.
    rewrite (process_entries_lookup _ _ _ _ _ Hnd Hentries Hlookup).
    rewrite lookup_empty. simpl. by rewrite (right_id_L ∅ (∪)).
  - apply (not_elem_of_list_to_map_2 (M := gmap string)) in Hlookup.
    rewrite (process_entries_other _ _ _ _ Hentries Hlookup).
    apply lookup_empty.
Qed.

Lemma process_entries_returns data ami_data :
  (∃ res, process_entries data ami_data = Ok res)
  ↔ Forall (λ entry, entry_failure entry.2 = None) ami_data.
Proof.
  revert data. induction ami_data as [|[region info] rest IH]; intros data;
    cbn [process_entries].
  { split; [done|by eexists]. }
  pose proof (process_entry_outcome data region info) as Hentry.
  rewrite Forall_cons. cbn [snd].
  destruct (process_entry data (region, info)) as [data'|e];
    cbn [mbind result_bind].
  - rewrite IH. tauto.
  - rewrite Hentry. split; [by intros [? ?]|by intros [? _]].
Qed.

Lemma process_entries_raises data ami_data e :
  process_entries data ami_data = Raise e
  ↔ ∃ before entry rest,
      ami_data = before ++ entry :: rest
      ∧ Forall (λ entry, entry_failure entry.2 = None) before
      ∧ entry_failure entry.2 = Some e.
Proof.
  revert data. induction ami_data as [|[region info] ami_data IH];
    intros data; cbn [process_entries].
  { split; [done|]. intros (before & entry & rest & Heq & _).
    by destruct before. }
  pose proof (process_entry_outcome data region info) as Hentry.
  destruct (process_entry data (region, info)) as [data'|e'];
    cbn [mbind result_bind].
  - rewrite IH. split.
    + intros (before & entry & rest & -> & Hbefore & Hfails).
      exists ((region, info) :: before), entry, rest.
      split; [done|]. split; [by constructor|done].
    + intros (before & entry & rest & Heq & Hbefore & Hfails).
      destruct before as [|first before]; simplify_eq/=; try congruence.
      apply Forall_cons in Hbefore as [_ Hbefore]. by eexists _, _, _.
  - split.
    + intros [= ->]. by exists [], (region, info), ami_data.
    + intros (before & entry & rest & Heq & Hbefore & Hfails).
      destruct before as [|first before]; simplify_eq/=; try congruence.
      apply Forall_cons in Hbefore as [Hfirst _]. simpl in Hfirst.
      congruence.
Qed.

Lemma entry_failure_exceptions info e :
  entry_failure info = Some e → e = AttributeError ∨ e = IndexError.
Proof.
  unfold entry_failure. destruct (entry_name info) as [ami_name|].
  - destruct (get_ssm_parameter_name_cases ami_name true)
      as [[_ ->]|[(_ & _ & ->)|[_ [p ->]]]]; [done| |done].
    intros [= <-]. by right.
  - intros [= <-]. by left.
Qed.

(** One entry that fails makes the whole file fail.  For a file that holds
    a JSON object, the call returns a mapping exactly when every entry is a
    dict whose name is a [str] (or absent) on which the translator does not
    raise; otherwise it raises what the first failing entry fails with,
    which is [AttributeError] or [IndexError], and nothing is returned for
    the entries before. *)
Theorem process_ami_json_fails_as_a_whole members :
  ((∃ res, process_ami_json (Document (JObj members)) = Returned (Some res))
   ↔ Forall (λ entry, entry_failure entry.2 = None) (loaded_items members))
  ∧ (∀ e, process_ami_json (Document (JObj members)) = Raised e
          ↔ ∃ before entry rest,
              loaded_items members = before ++ entry :: rest
              ∧ Forall (λ entry, entry_failure entry.2 = None) before
              ∧ entry_failure entry.2 = Some e)
  ∧ (∀ e, process_ami_json (Document (JObj members)) = Raised e →
          e = AttributeError ∨ e = IndexError).
Proof.
  unfold process_ami_json.
  pose proof (process_entries_returns ∅ (loaded_items members)) as Hreturns.
  pose proof (process_entries_raises ∅ (loaded_items members)) as Hraises.
  assert (∀ e, process_entries ∅ (loaded_items members) = Raise e →
               e = AttributeError ∨ e = IndexError) as Hexn.
  { intros e (_ & entry & _ & _ & _ & Hfails)%Hraises.
    by apply (entry_failure_exceptions entry.2). }
  destruct (process_entries ∅ (loaded_items members)) as [data|e'].
  - split; [|split].
    + rewrite <- Hreturns. split; by eexists.
    + intros e. rewrite <- Hraises. split; by intros [=].
    + by intros e [=].
  - split; [|split].
    + rewrite <- Hreturns. split; [by intros [? [=]]|by intros [? [=]]].
    + intros e. rewrite <- Hraises. split; by intros [= ->].
    + intros e [= <-]. by apply Hexn.
Qed.

(** A [null] name, an entry that is not an object and a name with the
    variant tag in the last place each lose the entry before them. *)
Lemma process_ami_json_failing_entries :
  let good :=
    ("us-west-2",
     JObj [("name", JStr "bottlerocket-aws-ecs-1-x86_64-v1.14.3-0a1b2c3d4e");
           ("id", JStr "ami-1")]) in
  process_ami_json
    (Document (JObj [good; ("us-east-1", JObj [("name", JNull)])]))
  = Raised AttributeError
  ∧ process_ami_json (Document (JObj [good; ("us-east-1", JStr "ami-2")]))
    = Raised AttributeError
  ∧ process_ami_json
      (Document (JObj [good;
         ("us-east-1",
          JObj [("name",
                 JStr "bottlerocket-aws-k8s-1.24-x86_64-v1.24.3-nvidia")])]))
    = Raised IndexError
  ∧ process_ami_json (Document (JArr [])) = Raised AttributeError.
Proof. by vm_compute. Qed.
End AmiMappingFacts.

Section AmiMappingPaths.
Import Translator VersionGate AmiMapping AmiNotions.

Lemma entry_mapping_paths info path :
  is_Some (entry_mapping info !! path) → image_id_path path.
Proof.
  unfold entry_mapping.
  destruct (entry_name info) as [ami_name|];
    [|rewrite lookup_empty; by intros [? ?]].
  destruct (get_ssm_parameter_name _ true) as [[full|]|] eqn:Hfull;
    try (rewrite lookup_empty; by intros [? ?]).
  destruct (get_ssm_parameter_name _ false) as [[version|]|] eqn:Hversion;
    try (rewrite lookup_empty; by intros [? ?]).
  destruct (translated_path_prefix_and_suffix _ _ _ Hfull) as (? & ? & _).
  destruct (translated_path_prefix_and_suffix _ _ _ Hversion) as (? & ? & _).
  intros [v Hv].
  apply lookup_insert_Some in Hv as [[<- _]|[_ Hv]]; [done|].
  apply lookup_insert_Some in Hv as [[<- _]|[_ Hv]]; [done|].
  by rewrite lookup_empty in Hv.
Qed.

Lemma process_entries_paths data ami_data res :
  (∀ region mapping path,
     data !! region = Some mapping → is_Some (mapping !! path) →
     image_id_path path) →
  process_entries data ami_data = Ok res →
  ∀ region mapping path,
    res !! region = Some mapping → is_Some (mapping !! path) →
    image_id_path path.
Proof.
  revert data. induction ami_data as [|[r info] rest IH]; intros data Hdata;
    cbn [process_entries].
  { by intros [= <-]. }
  destruct (process_entry data (r, info)) as [data'|] eqn:Hentry;
    simpl; [|done].
  apply IH. intros region mapping path.
  rewrite (process_entry_lookup _ _ _ _ region Hentry).
  case_decide; [|by apply Hdata].
  intros [= <-] [v Hv]. apply lookup_union_Some_raw in Hv as [Hv|[_ Hv]].
  - apply (entry_mapping_paths info). by eexists.
  - destruct (data !! r) as [old|] eqn:Hold; simpl in Hv.
    + apply (Hdata r old); [done|by eexists].
    + by rewrite lookup_empty in Hv.
Qed.

(** Every key of every mapping that [process_ami_json] returns is a
    parameter path: it starts with [aws/service/bottlerocket/] and ends
    with [/image_id]. *)
Theorem process_ami_json_keys_are_parameter_paths file res region mapping
    path :
  process_ami_json file = Returned (Some res) →
  res !! region = Some mapping → is_Some (mapping !! path) →
  image_id_path path.
Proof.
  unfold process_ami_json.
  destruct file as [| | |[| | | |?|members]]; try done.
  destruct (process_entries ∅ (loaded_items members)) as [data|] eqn:Hentries;
    [|done].
  intros [= <-].
  apply (process_entries_paths ∅ (loaded_items members) data); [|done].
  intros r m p. by rewrite lookup_empty.
Qed.

Lemma process_ami_json_maps_every_region_witness :
  ∃ res,
    process_ami_json
      (Document (JObj
         [("us-west-2",
           JObj [("name",
                  JStr "bottlerocket-aws-ecs-1-x86_64-v1.14.3-0a1b2c3d4e");
                 ("id", JStr "ami-1")])])) = Returned (Some res)
    ∧ res !! "us-west-2"
      = entry_mapping
          <$> ((list_to_map
                  [("us-west-2",
                    JObj [("name",
                           JStr "bottlerocket-aws-ecs-1-x86_64-v1.14.3-0a1b2c3d4e");
                          ("id", JStr "ami-1")])] : gmap string json)
               !! "us-west-2").
Proof.
  eexists. split; [reflexivity|].
  apply (process_ami_json_maps_every_region
           [("us-west-2",
             JObj [("name",
                    JStr "bottlerocket-aws-ecs-1-x86_64-v1.14.3-0a1b2c3d4e");
                   ("id", JStr "ami-1")])]).
  - simpl. apply NoDup_singleton.
  - reflexivity.
Defined.

Lemma process_ami_json_keys_are_parameter_paths_witness :
  image_id_path "aws/service/bottlerocket/aws-ecs-1/x86_64/1.14.3/image_id".
Proof.
  refine (process_ami_json_keys_are_parameter_paths
    (Document (JObj
       [("us-west-2",
         JObj [("name",
                JStr "bottlerocket-aws-ecs-1-x86_64-v1.14.3-0a1b2c3d4e");
               ("id", JStr "ami-1")])]))
    _ "us-west-2" _ _ eq_refl _ _).
  - vm_compute. reflexivity.
  - exists (JStr "ami-1"). vm_compute. reflexivity.
Defined.
End AmiMappingPaths.

(** ** Fetching the parameters of a region *)

Section SsmFetchFacts.
Import SsmFetch.
Implicit Types (run : list string → cli_result) (fs : files)
  (parameters : gmap string string).

Lemma endswith_shorter a suffix s :
  PyText.endswith (String a suffix) s = true →
  PyText.endswith suffix s = true.
Proof.
  induction s as [|c s IH]; [done|]. cbn [PyText.endswith].
  intros [Heq|Htail]%orb_true_iff.
  - apply String.eqb_eq in Heq as [= -> ->].
    rewrite endswith_refl. apply orb_true_r.
  - rewrite (IH Htail). apply orb_true_r.
Qed.

Lemma lstrip_no_leading c s :
  PyText.startswith (String c EmptyString) (PyText.lstrip c s) = false.
Proof.
  induction s as [|c' s IH]; simpl; [done|].
  destruct (Ascii.eqb c' c) eqn:Hc; [done|]. simpl. by rewrite Hc.
Qed.

Lemma lstrip_keeps_image_id s :
  PyText.endswith "/image_id" s = true →
  PyText.endswith "image_id" (PyText.lstrip "/" s) = true.
Proof.
  induction s as [|c s IH]; [done|].
  intros Hs. cbn [PyText.lstrip].
  destruct (Ascii.eqb c "/") eqn:Hc; [|by eapply endswith_shorter].
  cbn [PyText.endswith] in Hs. apply orb_true_iff in Hs as [Heq|Htail].
  - apply String.eqb_eq in Heq as [= _ ->]. reflexivity.
  - by apply IH.
Qed.

(** The keys under which parameters are filed. *)
Lemma add_parameters_keys (P : string → Prop) parameters r :
  (∀ name, PyText.endswith "/image_id" name = true →
           P (PyText.lstrip "/" name)) →
  (∀ key, is_Some (parameters !! key) → P key) →
  ∀ key, is_Some (add_parameters parameters r !! key) → P key.
Proof.
  intros Hname. unfold add_parameters. revert parameters.
  induction (default [] (Parameters r)) as [|p ps IH]; intros parameters Hps;
    simpl; [done|].
  apply IH. destruct (PyText.endswith "/image_id" (Name p)) eqn:Hend; [|done].
  intros key [v Hv]. apply lookup_insert_Some in Hv as [[<- _]|[_ Hv]].
  - by apply Hname.
  - apply Hps. by eexists.
Qed.

Lemma next_pages_keys (P : string → Prop) fuel run cmd r parameters fetched :
  (∀ name, PyText.endswith "/image_id" name = true →
           P (PyText.lstrip "/" name)) →
  (∀ key, is_Some (parameters !! key) → P key) →
  next_pages fuel run cmd r parameters = Some (Fetched fetched) →
  ∀ key, is_Some (fetched !! key) → P key.
Proof.
  intros Hname. revert cmd r parameters.
  induction fuel as [|fuel IH]; intros cmd r parameters Hps; simpl.
  - destruct (NextToken r); [done|]. by intros [= <-].
  - destruct (NextToken r) as [token|]; [|by intros [= <-]].
    destruct (run _) as [|[r'|]]; try done.
    apply IH. by apply add_parameters_keys.
Qed.

(** What a fetch returns is filed under normalised names: no key starts
    with [/], and every key ends with [image_id]. *)
Theorem fetched_keys_are_normalised fuel run fs region parameters fs' key :
  get_ssm_parameters_for_region fuel run fs region false
    = Some (Returns parameters, fs') →
  is_Some (parameters !! key) →
  PyText.startswith "/" key = false ∧ PyText.endswith "image_id" key = true.
Proof.
  unfold get_ssm_parameters_for_region.
  assert (∀ k : string, is_Some ((∅ : gmap string string) !! k) →
            PyText.startswith "/" k = false
            ∧ PyText.endswith "image_id" k = true) as Hempty.
  { intros k [v Hv]. by rewrite lookup_empty in Hv. }
  destruct (run (base_cmd region)) as [|[r|]].
  - intros [= <- <-]. apply Hempty.
  - destruct (next_pages _ _ _ _ _) as [[fetched|]|] eqn:Hpages; [| |done].
    + intros [= <- <-]. revert key.
      eapply (next_pages_keys
                (λ k, PyText.startswith "/" k = false
                      ∧ PyText.endswith "image_id" k = true));
        [| |exact Hpages].
      * intros name Hend. split; [apply lstrip_no_leading|].
        by apply lstrip_keeps_image_id.
      * apply add_parameters_keys; [|done].
        intros name Hend. split; [apply lstrip_no_leading|].
        by apply lstrip_keeps_image_id.
    + intros [= <- <-]. apply Hempty.
  - intros [= <- <-]. apply Hempty.
Qed.

(** Once a fetch has returned parameters, a later call that may use the
    cache returns the same parameters, whatever the CLI would answer. *)
Theorem fetched_parameters_are_cached fuel run fs region parameters fs'
    fuel' run' :
  get_ssm_parameters_for_region fuel run fs region false
    = Some (Returns parameters, fs') →
  parameters ≠ ∅ →
  get_ssm_parameters_for_region fuel' run' fs' region true
  = Some (Returns parameters, fs').
Proof.
  unfold get_ssm_parameters_for_region.
  destruct (run (base_cmd region)) as [|[r|]]; try by intros [= <- <-].
  destruct (next_pages _ _ _ _ _) as [[fetched|]|]; try by intros [= <- <-].
  intros [= <- <-] _. by rewrite lookup_insert_eq.
Qed.

(** A failure on the second page loses the first page too: the call
    returns the empty mapping and writes no cache file. *)
Theorem failure_on_a_later_page_loses_all fuel run fs region r token
    (use_cache : bool) :
  (if use_cache then fs !! cache_file region else None) = None →
  run (base_cmd region) = Stdout (Some r) →
  NextToken r = Some token →
  (run (base_cmd region ++ ["--next-token"; token]) = CalledProcessError
   ∨ run (base_cmd region ++ ["--next-token"; token]) = Stdout None) →
  get_ssm_parameters_for_region (S fuel) run fs region use_cache
  = Some (Returns ∅, fs).
Proof.
  intros Hcache Hfirst Htoken Hsecond. unfold get_ssm_parameters_for_region.
  rewrite Hcache, Hfirst. cbn [next_pages]. rewrite Htoken.
  by destruct Hsecond as [-> | ->].
Qed.
End SsmFetchFacts.

Section SsmFetchAndTranslator.
Import Translator SsmFetch.

(** A parameter named [/] followed by a path of the translator is filed
    under exactly that path, the key the S3 side uses. *)
Theorem parameter_is_filed_under_the_translated_path name include_commit path
    parameters value token :
  get_ssm_parameter_name name include_commit = Ok (Some path) →
  add_parameters parameters
    (Response (Some [Param ("/" +:+ path) value]) token)
  = <[path := value]> parameters.
Proof.
  intros Hpath.
  destruct (translated_path_prefix_and_suffix _ _ _ Hpath)
    as (_ & Hend & Hstrip).
  unfold add_parameters. cbn [default Parameters id foldl Name Value].
  rewrite (endswith_app_r "/image_id" "/" path Hend).
  change ("/" +:+ path) with (String slash path).
  cbn [PyText.lstrip]. rewrite Ascii.eqb_refl.
  change (PyText.lstrip "/" path) with (PyText.lstrip slash path).
  by rewrite Hstrip.
Qed.
End SsmFetchAndTranslator.

Section SsmFetchWitnesses.
Import Translator SsmFetch SsmSamples.

Lemma fetched_keys_are_normalised_witness :
  PyText.startswith "/"
    "aws/service/bottlerocket/aws-ecs-1/x86_64/1.14.3/image_id" = false
  ∧ PyText.endswith "image_id"
      "aws/service/bottlerocket/aws-ecs-1/x86_64/1.14.3/image_id" = true.
Proof.
  refine (fetched_keys_are_normalised 0 one_page_cli ∅ "us-west-2"
            _ _ "aws/service/bottlerocket/aws-ecs-1/x86_64/1.14.3/image_id"
            eq_refl _).
  exists "ami-1". vm_compute. reflexivity.
Defined.

Lemma fetched_parameters_are_cached_witness :
  get_ssm_parameters_for_region 0 (λ _, CalledProcessError)
    (<[cache_file "us-west-2" :=
         Json (<["aws/service/bottlerocket/aws-ecs-1/x86_64/1.14.3/image_id"
                 := "ami-1"]> ∅)]> ∅)
    "us-west-2" true
  = Some (Returns (<["aws/service/bottlerocket/aws-ecs-1/x86_64/1.14.3/image_id"
                     := "ami-1"]> ∅),
          <[cache_file "us-west-2" :=
              Json (<["aws/service/bottlerocket/aws-ecs-1/x86_64/1.14.3/image_id"
                      := "ami-1"]> ∅)]> ∅).
Proof.
  apply (fetched_parameters_are_cached 0 one_page_cli ∅ "us-west-2").
  - reflexivity.
  - intros Hempty.
    apply (f_equal (λ m : gmap string string,
             m !! "aws/service/bottlerocket/aws-ecs-1/x86_64/1.14.3/image_id"))
      in Hempty.
    vm_compute in Hempty. discriminate.
Defined.

Lemma failure_on_a_later_page_loses_all_witness :
  get_ssm_parameters_for_region 1 failing_second_page_cli ∅ "us-west-2" true
  = Some (Returns ∅, ∅).
Proof.
  apply (failure_on_a_later_page_loses_all 0 failing_second_page_cli ∅
           "us-west-2" (Response (Some [image_parameter]) (Some "t1")) "t1"
           true).
  - reflexivity.
  - reflexivity.
  - reflexivity.
  - left. reflexivity.
Defined.

Lemma parameter_is_filed_under_the_translated_path_witness :
  add_parameters ∅
    (Response
       (Some [Param ("/" +:+ "aws/service/bottlerocket/aws-ecs-1/x86_64/1.14.3/image_id")
                    "ami-1"]) None)
  = <["aws/service/bottlerocket/aws-ecs-1/x86_64/1.14.3/image_id" := "ami-1"]> ∅.
Proof.
  apply (parameter_is_filed_under_the_translated_path
           "bottlerocket-aws-ecs-1-x86_64-v1.14.3-0a1b2c3d4e" false).
  reflexivity.
Defined.
End SsmFetchWitnesses.
